(** * CalansPartParser: the rule catalog, the token matching engine, the
      line tokenizer and the field aggregator of [src/App.tsx]

    The TypeScript source classifies comma separated part descriptions
    with a fixed catalog of regular expressions.  The development below
    embeds

    - the fragment of ECMAScript regular expressions that the catalog
      uses, as a backtracking matcher with capture groups ([run], [exec]);
    - [String.prototype.split] with a regular expression separator;
    - the catalog [SPECIFICATION] and the functions [parseToken],
      [tokenizeLine], [parseLine] and [populateSpecFields];

    and then states and proves the properties of the program.

    JavaScript strings are modelled by [string]; every character the
    catalog mentions is an ASCII character. *)

From Stdlib Require Import Bool Arith Lia List Ascii String Permutation.
Import ListNotations.

Local Open Scope string_scope.
Local Open Scope nat_scope.
Local Open Scope list_scope.

(* ================================================================== *)
(** * Regular expressions *)
(* ================================================================== *)

Module Regex.

(** The abstract syntax of the patterns that occur in the source.  A
    capturing group carries its number (the rank of its left parenthesis
    in the pattern); a non-capturing group [(?:r)] is just [r]. *)
Inductive regex : Type :=
| Eps                                   (* the empty pattern *)
| Chr (c : ascii)                       (* a literal character *)
| Digit                                 (* \d *)
| Class (cs : list ascii)               (* [...] *)
| Bol                                   (* ^ *)
| Eol                                   (* $ *)
| Seq (r1 r2 : regex)                   (* r1 r2 *)
| Alt (r1 r2 : regex)                   (* r1|r2 *)
| Group (n : nat) (r : regex)           (* (r), the n-th group *)
| Quant (r : regex) (min : nat) (max : option nat) (greedy : bool).
                                        (* r{min,max} and r{min,max}? *)

(** [r?], [r+] and [r+?] *)
Definition Opt (r : regex) : regex := Quant r 0 (Some 1) true.
Definition Plus (r : regex) : regex := Quant r 1 None true.
Definition PlusLazy (r : regex) : regex := Quant r 1 None false.

(** A run of literal characters. *)
Fixpoint lit (s : string) : regex :=
  match s with
  | EmptyString => Eps
  | String c EmptyString => Chr c
  | String c s' => Seq (Chr c) (lit s')
  end.

Declare Scope regex_scope.
Delimit Scope regex_scope with re.
Bind Scope regex_scope with regex.
Infix ";;" := Seq (at level 41, right associativity) : regex_scope.
Infix "<|>" := Alt (at level 42, right associativity) : regex_scope.

(** \d without the unicode flag is [0-9]. *)
Definition is_digit (c : ascii) : bool :=
  let n := nat_of_ascii c in (48 <=? n) && (n <=? 57).

Fixpoint mem_ascii (c : ascii) (cs : list ascii) : bool :=
  match cs with
  | [] => false
  | a :: cs' => Ascii.eqb c a || mem_ascii c cs'
  end.

(** The capture groups that occur in a pattern. *)
Fixpoint groups (r : regex) : list nat :=
  match r with
  | Seq r1 r2 | Alt r1 r2 => groups r1 ++ groups r2
  | Group n r' => n :: groups r'
  | Quant r' _ _ _ => groups r'
  | _ => []
  end.

(** ** Matcher states

    A state of the ECMAScript matcher is the index reached in the input
    and the captures recorded so far.  [rest] is the input from
    [endIndex] on. *)
Record State : Type := mkState {
  endIndex : nat;
  rest : string;
  captures : list (nat * string)
}.

Definition set_capture (n : nat) (s : string) (caps : list (nat * string))
  : list (nat * string) :=
  (n, s) :: filter (fun p => negb (fst p =? n)) caps.

Definition reset_captures (ns : list nat) (caps : list (nat * string))
  : list (nat * string) :=
  filter (fun p => negb (existsb (Nat.eqb (fst p)) ns)) caps.

Fixpoint get_capture (n : nat) (caps : list (nat * string)) : option string :=
  match caps with
  | [] => None
  | (k, s) :: caps' => if k =? n then Some s else get_capture n caps'
  end.

(** One character is consumed. *)
Definition advance (x : State) (s : string) : State :=
  mkState (S (endIndex x)) s (captures x).

Definition char_matcher (p : ascii -> bool) (x : State) : list State :=
  match rest x with
  | String a s => if p a then [advance x s] else []
  | EmptyString => []
  end.

(** ** The matcher

    ECMAScript defines matching by continuations and backtracking.  Here
    a matcher returns the list of the states in which it can succeed, in
    the order in which backtracking tries them: the match that the
    continuation passing matcher finds is the first state of the list.

    [RepeatMatcher] follows the abstract operation of the same name: [m]
    is the matcher of the quantified atom and [parens] its capture
    groups, which every iteration resets.  With [min = 0] an iteration
    that consumes nothing is rejected.  [fuel] bounds the number of
    iterations; [min + length (rest x) + 1] is enough
    ([RepeatMatcher_fuel]). *)
Fixpoint RepeatMatcher (fuel : nat) (m : State -> list State)
    (parens : list nat) (min : nat) (max : option nat) (greedy : bool)
    (x : State) : list State :=
  match fuel with
  | 0 => []
  | S fuel' =>
      match max with
      | Some 0 => [x]
      | _ =>
          let d (y : State) : list State :=
            if (min =? 0) && (endIndex y =? endIndex x) then []
            else RepeatMatcher fuel' m parens (pred min)
                   (option_map pred max) greedy y in
          let xr := mkState (endIndex x) (rest x)
                      (reset_captures parens (captures x)) in
          if negb (min =? 0) then flat_map d (m xr)
          else if greedy then flat_map d (m xr) ++ [x]
          else x :: flat_map d (m xr)
      end
  end.

Fixpoint run (r : regex) (x : State) : list State :=
  match r with
  | Eps => [x]
  | Chr c => char_matcher (Ascii.eqb c) x
  | Digit => char_matcher is_digit x
  | Class cs => char_matcher (fun a => mem_ascii a cs) x
  | Bol => if endIndex x =? 0 then [x] else []
  | Eol => match rest x with EmptyString => [x] | _ => [] end
  | Seq r1 r2 => flat_map (run r2) (run r1 x)
  | Alt r1 r2 => run r1 x ++ run r2 x
  | Group n r' =>
      map (fun y =>
             mkState (endIndex y) (rest y)
               (set_capture n
                  (substring 0 (endIndex y - endIndex x) (rest x))
                  (captures y)))
          (run r' x)
  | Quant r' min max greedy =>
      RepeatMatcher (min + String.length (rest x) + 1) (run r') (groups r')
        min max greedy x
  end.

(** ** [RegExp.prototype.exec] for a pattern without flags

    The match array: [index], the matched text [m[0]] and the captures
    [m[1]], [m[2]], ... *)
Record MatchArray : Type := mkMatch {
  index : nat;
  whole : string;
  caps : list (nat * string)
}.

(** The matcher is tried at the indices 0, 1, ..., length in turn; [s]
    is the input from index [i] on. *)
Fixpoint search (re : regex) (i : nat) (s : string) : option MatchArray :=
  match run re (mkState i s []) with
  | y :: _ => Some (mkMatch i (substring 0 (endIndex y - i) s) (captures y))
  | [] =>
      match s with
      | EmptyString => None
      | String _ s' => search re (S i) s'
      end
  end.

Definition exec (re : regex) (s : string) : option MatchArray :=
  search re 0 s.

End Regex.
Import Regex.

(* ================================================================== *)
(** * JavaScript values *)
(* ================================================================== *)

(** What a rule's [match] function can return: the declared type is
    [string | null], and indexing a match array can give [undefined]. *)
Inductive value : Type :=
| VNull
| VUndefined
| VStr (s : string).

(** [if (value)]: [null], [undefined] and the empty string are falsy. *)
Definition truthy (v : value) : bool :=
  match v with
  | VStr (String _ _) => true
  | _ => false
  end.

(** [m[k]] on a match array; a group that did not take part in the
    match, or an index past the last group, gives [undefined]. *)
Definition m_get (m : MatchArray) (k : nat) : value :=
  match k with
  | 0 => VStr (whole m)
  | _ => match get_capture k (caps m) with
         | Some s => VStr s
         | None => VUndefined
         end
  end.

(** The outcome of running a piece of the program: a result, the
    [TypeError] that reading a property of [undefined] throws, or a loop
    that was not given enough fuel to finish. *)
Inductive outcome (A : Type) : Type :=
| Ok (a : A)
| TypeError
| OutOfFuel.
Arguments Ok {A} a.
Arguments TypeError {A}.
Arguments OutOfFuel {A}.

Definition bind {A B : Type} (o : outcome A) (k : A -> outcome B)
  : outcome B :=
  match o with
  | Ok a => k a
  | TypeError => TypeError
  | OutOfFuel => OutOfFuel
  end.

Notation "x <- o ; k" := (bind o (fun x => k))
  (at level 61, o at next level, right associativity).

(* ================================================================== *)
(** * [String.prototype.split] with a regular expression *)
(* ================================================================== *)

(** The loop of [RegExp.prototype[Symbol.split]] for a separator without
    capture groups and no limit: [p] is the start of the piece being
    built, [q] the index at which the separator is tried next, [A] the
    pieces found so far. *)
Fixpoint split_loop (fuel : nat) (re : regex) (str : string) (p q : nat)
    (A : list string) : outcome (list string) :=
  match fuel with
  | 0 => OutOfFuel
  | S fuel' =>
      let size := String.length str in
      if q <? size then
        match run re (mkState q (substring q (size - q) str) []) with
        | [] => split_loop fuel' re str p (q + 1) A
        | z :: _ =>
            let e := Nat.min (endIndex z) size in
            if e =? p then split_loop fuel' re str p (q + 1) A
            else split_loop fuel' re str e e (A ++ [substring p (q - p) str])
        end
      else Ok (A ++ [substring p (size - p) str])
  end.

Definition split (re : regex) (str : string) : outcome (list string) :=
  if String.length str =? 0 then
    match run re (mkState 0 str []) with
    | [] => Ok [str]
    | _ :: _ => Ok []
    end
  else split_loop (2 * String.length str + 2) re str 0 0 [].

(* ================================================================== *)
(** * The field specification catalog *)
(* ================================================================== *)

(** [IFieldMatcher]: every [match] function of the source has the shape
    [const m = s.match(pattern); return m ? extract : null], so a rule
    is its [kind], its pattern and the expression it returns on a match
    (a function of the candidate [s] and of the match array [m]). *)
Record IFieldMatcher : Type := mkMatcher {
  matcher_kind : string;
  pattern : regex;
  extract : string -> MatchArray -> value
}.

(** [field_matcher.match(s)] *)
Definition match_ (fm : IFieldMatcher) (s : string) : value :=
  match exec (pattern fm) s with
  | Some m => extract fm s m
  | None => VNull
  end.

Record ISpecField : Type := mkField {
  field_kind : string;
  matchers : list IFieldMatcher
}.

(** The double quote character. *)
Definition dquote : ascii := "034"%char.

Local Open Scope regex_scope.

(** /^((FLANGE)|(FLNG)|(FLG))$/ *)
Definition re_FLANGE : regex :=
  Bol ;; Group 1 (Group 2 (lit "FLANGE") <|> Group 3 (lit "FLNG")
                  <|> Group 4 (lit "FLG")) ;; Eol.

(** /^PIPE$/ *)
Definition re_PIPE : regex := Bol ;; lit "PIPE" ;; Eol.

(** /^(\d+(?:\.\d)?)\Q$/ where Q stands for the double quote character *)
Definition re_INCHES : regex :=
  Bol ;; Group 1 (Plus Digit ;; Opt (Chr "." ;; Digit)) ;; Chr dquote ;; Eol.

(** /^((WE?LD ?NE?CK( FLA?NGE?)?)|(WNF?)(WELD))$/ *)
Definition re_WELD_NECK : regex :=
  Bol ;;
  Group 1
    (Group 2 (Chr "W" ;; Opt (Chr "E") ;; lit "LD" ;; Opt (Chr " ") ;;
              Chr "N" ;; Opt (Chr "E") ;; lit "CK" ;;
              Opt (Group 3 (lit " FL" ;; Opt (Chr "A") ;; lit "NG" ;;
                            Opt (Chr "E"))))
     <|> Group 4 (lit "WN" ;; Opt (Chr "F")) ;; Group 5 (lit "WELD")) ;;
  Eol.

(** /^((\d\d\d\#)|(\d\d\d (LB)|(PSI))|(CL \d\d\d))$/ *)
Definition re_POUNDS : regex :=
  Bol ;;
  Group 1
    (Group 2 (Digit ;; Digit ;; Digit ;; Chr "#")
     <|> Group 3 (Digit ;; Digit ;; Digit ;; Chr " " ;; Group 4 (lit "LB")
                  <|> Group 5 (lit "PSI"))
     <|> Group 6 (lit "CL " ;; Digit ;; Digit ;; Digit)) ;;
  Eol.

(** /\d+/ *)
Definition re_digits : regex := Plus Digit.

(** /^S(?:CH(?:EDULE)?)?[\- ](\d+)$/ *)
Definition re_SCHEDULE_INCHES : regex :=
  Bol ;; Chr "S" ;; Opt (lit "CH" ;; Opt (lit "EDULE")) ;;
  Class ["-"; " "]%char ;; Group 1 (Plus Digit) ;; Eol.

(** /^(S(CH(EDULE)?)? (STD)|(STANDARD))$/ *)
Definition re_SCHEDULE_STANDARD : regex :=
  Bol ;;
  Group 1
    (Chr "S" ;; Opt (Group 2 (lit "CH" ;; Opt (Group 3 (lit "EDULE")))) ;;
     Chr " " ;; Group 4 (lit "STD")
     <|> Group 5 (lit "STANDARD")) ;;
  Eol.

(** /^((XH)|(XHB)|(EXTRA HEAVY))$/ *)
Definition re_EXTRA_HEAVY : regex :=
  Bol ;; Group 1 (Group 2 (lit "XH") <|> Group 3 (lit "XHB")
                  <|> Group 4 (lit "EXTRA HEAVY")) ;; Eol.

(** /^(ASME B\d+\.?\d+?)$/ *)
Definition re_ASME : regex :=
  Bol ;; Group 1 (lit "ASME B" ;; Plus Digit ;; Opt (Chr ".") ;;
                  PlusLazy Digit) ;; Eol.

(** /^(?:FCS )?(S?A\d\d\dN?)$/ *)
Definition re_STEEL_TYPE : regex :=
  Bol ;; Opt (lit "FCS ") ;;
  Group 1 (Opt (Chr "S") ;; Chr "A" ;; Digit ;; Digit ;; Digit ;;
           Opt (Chr "N")) ;; Eol.

(** /^((CS)|(CARBON( STEEL)?))$/ *)
Definition re_CARBON_STEEL : regex :=
  Bol ;; Group 1 (Group 2 (lit "CS")
                  <|> Group 3 (lit "CARBON" ;; Opt (Group 4 (lit " STEEL")))) ;;
  Eol.

(** /, ?/ *)
Definition re_comma : regex := Chr "," ;; Opt (Chr " ").

Local Close Scope regex_scope.

(** [(s.match(/\d+/) || [])[0]] *)
Definition first_digits (s : string) : value :=
  match exec re_digits s with
  | Some m => m_get m 0
  | None => VUndefined
  end.

Definition FLANGE : IFieldMatcher :=
  mkMatcher "FLANGE" re_FLANGE (fun _ _ => VStr "FLANGE").
Definition PIPE : IFieldMatcher :=
  mkMatcher "PIPE" re_PIPE (fun _ _ => VStr "PIPE").
Definition INCHES : IFieldMatcher :=
  mkMatcher "INCHES" re_INCHES (fun _ m => m_get m 1).
Definition WELD_NECK : IFieldMatcher :=
  mkMatcher "WELD NECK" re_WELD_NECK (fun _ _ => VStr "WELD NECK").
Definition POUNDS : IFieldMatcher :=
  mkMatcher "POUNDS" re_POUNDS (fun s _ => first_digits s).
Definition SCHEDULE_INCHES : IFieldMatcher :=
  mkMatcher "SCHEDULE INCHES" re_SCHEDULE_INCHES (fun _ m => m_get m 1).
Definition SCHEDULE_STANDARD : IFieldMatcher :=
  mkMatcher "SCHEDULE STANDARD" re_SCHEDULE_STANDARD
    (fun _ _ => VStr "STANDARD").
Definition SCHEDULE_EXTRA_HEAVY : IFieldMatcher :=
  mkMatcher "SCHEDULE EXTRA HEAVY" re_EXTRA_HEAVY
    (fun _ _ => VStr "EXTRA HEAVY").
Definition ASME_STANDARD : IFieldMatcher :=
  mkMatcher "ASME STANDARD" re_ASME (fun _ m => m_get m 0).
Definition STEEL_TYPE : IFieldMatcher :=
  mkMatcher "STEEL TYPE" re_STEEL_TYPE (fun _ m => m_get m 1).
Definition CARBON_STEEL : IFieldMatcher :=
  mkMatcher "CARBON STEEL" re_CARBON_STEEL (fun _ _ => VStr "CARBON STEEL").

Definition SPECIFICATION : list ISpecField :=
  [ mkField "PRODUCT TYPE" [FLANGE; PIPE];
    mkField "SIZE" [INCHES];
    mkField "FLANGE TYPE" [WELD_NECK];
    mkField "PRESSURE RATING" [POUNDS];
    mkField "BORE SCHEDULE SIZE"
      [SCHEDULE_INCHES; SCHEDULE_STANDARD; SCHEDULE_EXTRA_HEAVY];
    mkField "MATERIAL" [ASME_STANDARD; STEEL_TYPE; CARBON_STEEL] ].

(* ================================================================== *)
(** * The token matching engine *)
(* ================================================================== *)

Record ITokenMatch : Type := mkTokenMatch {
  spec_field_kind : string;
  field_match_kind : string;
  standardized_value : string
}.

Record ITokenMatchResult : Type := mkResult {
  token : string;
  matches : list ITokenMatch
}.

(** The body of the inner loop of [parseToken]: the rule is run and a
    match is pushed when the value is truthy. *)
Definition try_matcher (token : string) (spec_field : ISpecField)
    (acc : list ITokenMatch) (field_matcher : IFieldMatcher)
  : list ITokenMatch :=
  let value := match_ field_matcher token in
  match value with
  | VStr v =>
      if truthy value
      then acc ++ [mkTokenMatch (field_kind spec_field)
                     (matcher_kind field_matcher) v]
      else acc
  | _ => acc
  end.

Definition parseToken (token : string) : ITokenMatchResult :=
  mkResult token
    (fold_left
       (fun acc spec_field =>
          fold_left (try_matcher token spec_field) (matchers spec_field) acc)
       SPECIFICATION []).

(* ================================================================== *)
(** * The line tokenizer *)
(* ================================================================== *)

(** [candidates[i].token]: reading [token] of an element that is not
    there throws. *)
Definition token_at (candidates : list ITokenMatchResult) (i : nat)
  : outcome string :=
  match nth_error candidates i with
  | Some c => Ok (token c)
  | None => TypeError
  end.

(** The template literals of the two merge windows.  The second one ends
    with a closing brace, as in the source. *)
Definition merge3 (a b c : string) : string :=
  (a ++ " " ++ b ++ " " ++ c)%string.
Definition merge2 (a b : string) : string :=
  (a ++ " " ++ b ++ "}")%string.

Definition has_matches (r : ITokenMatchResult) : bool :=
  0 <? List.length (matches r).

(** The last statement of the loop body and the two merge attempts that
    come before it.  Each returns the cursor at the end of the body
    (before [i++]) and the tokens emitted so far.  The [console.log] of
    the 3-way branch has no effect on the result and is left out. *)
Definition push_single (candidates : list ITokenMatchResult) (i : nat)
    (result : list string) : outcome (nat * list string) :=
  a <- token_at candidates i ;
  Ok (i, result ++ [a]).

Definition try_merge2 (candidates : list ITokenMatchResult) (i : nat)
    (result : list string) : outcome (nat * list string) :=
  if 2 <=? List.length candidates - i then
    a <- token_at candidates i ;
    b <- token_at candidates (i + 1) ;
    let s := merge2 a b in
    if has_matches (parseToken s) then Ok (i + 1, result ++ [s])
    else push_single candidates i result
  else push_single candidates i result.

Definition loop_body (candidates : list ITokenMatchResult) (i : nat)
    (result : list string) : outcome (nat * list string) :=
  if 3 <=? List.length candidates - i then
    a <- token_at candidates i ;
    b <- token_at candidates (i + 1) ;
    c <- token_at candidates (i + 2) ;
    let s := merge3 a b c in
    if has_matches (parseToken s) then Ok (i + 2, result ++ [s])
    else try_merge2 candidates i result
  else try_merge2 candidates i result.

(** [for (let i = 0; i < candidates.length; i++) { ... }] from the
    cursor [i] on. *)
Fixpoint for_loop (fuel : nat) (candidates : list ITokenMatchResult)
    (i : nat) (result : list string) : outcome (list string) :=
  match fuel with
  | 0 => OutOfFuel
  | S fuel' =>
      if i <? List.length candidates then
        ir <- loop_body candidates i result ;
        for_loop fuel' candidates (fst ir + 1) (snd ir)
      else Ok result
  end.

Definition tokenizeLine (line : string) : outcome (list string) :=
  parts <- split re_comma line ;
  let candidates := map parseToken parts in
  for_loop (List.length candidates + 1) candidates 0 [].

Definition parseLine (line : string) : outcome (list ITokenMatchResult) :=
  tokens <- tokenizeLine line ;
  Ok (map parseToken tokens).

(** [s] followed by a double quote. *)
Definition quoted (s : string) : string :=
  (s ++ String dquote "")%string.
(** The sample lines of [getTestLines]. *)
Definition getTestLines : list string :=
  [ quoted
      "PIPE, SCH STD, CS A-106B/A-53B/API 5L-B SMLS, P/D CODE PSA01 BBE, 3";
    quoted
      "FLG, RFSO, CL 150, SCH STD, FCS A105, ASME B16.5, P/D CODE FSA01, 20";
    quoted "FLG BLIND, RF,CL 150, FCS A105 ASME B16.5, 20";
    quoted
      "FLG, RFWN, CL 150, SCH STD, FCS A105 ASME B16.5, P/D CODE FWA01, 24" ].

(* ================================================================== *)
(** * The field aggregator *)
(* ================================================================== *)

Record FieldEntry : Type := mkEntry {
  entry_kind : string;
  entry_token : string;
  entry_value : string
}.

Record IPopulatedSpecField : Type := mkPopulated {
  populated_kind : string;
  populated_matches : list FieldEntry
}.

(** The three nested loops that fill one catalog field. *)
Definition populate_field (spec_field : ISpecField)
    (match_results : list ITokenMatchResult) : IPopulatedSpecField :=
  mkPopulated (field_kind spec_field)
    (fold_left
       (fun acc mr =>
          fold_left
            (fun acc m =>
               if (spec_field_kind m =? field_kind spec_field)%string
               then acc ++ [mkEntry (field_match_kind m) (token mr)
                              (standardized_value m)]
               else acc)
            (matches mr) acc)
       match_results []).

Definition unrecognized (match_results : list ITokenMatchResult)
  : IPopulatedSpecField :=
  mkPopulated "UNRECOGNIZED"
    (map (fun mr => mkEntry "UNRECOGNIZED" (token mr) (token mr))
       (filter (fun mr => List.length (matches mr) =? 0) match_results)).

Definition populateSpecFields (match_results : list ITokenMatchResult)
  : list IPopulatedSpecField :=
  fold_left
    (fun result spec_field =>
       result ++ [populate_field spec_field match_results])
    SPECIFICATION []
  ++ [unrecognized match_results].

(** [App] runs [parseLine] and then [populateSpecFields] on every line. *)
Definition parse_and_populate (line : string)
  : outcome (list IPopulatedSpecField) :=
  parsed_line <- parseLine line ;
  Ok (populateSpecFields parsed_line).

(** The values listed under the field [kind] (what a table cell shows). *)
Definition field_values (kind : string) (fields : list IPopulatedSpecField)
  : list string :=
  flat_map
    (fun f =>
       if (populated_kind f =? kind)%string
       then map entry_value (populated_matches f)
       else [])
    fields.

(* ================================================================== *)
(** * Notions used in the statements *)
(* ================================================================== *)

(** ** The language of a pattern

    [lang r w]: the text [w] conforms to the pattern [r], read as an
    ordinary regular expression ([^] and [$] consume nothing, groups are
    transparent, a quantifier is a number of iterations within its
    bounds). *)
Inductive lang : regex -> string -> Prop :=
| L_Eps : lang Eps ""
| L_Chr c : lang (Chr c) (String c "")
| L_Digit c : is_digit c = true -> lang Digit (String c "")
| L_Class cs c : mem_ascii c cs = true -> lang (Class cs) (String c "")
| L_Bol : lang Bol ""
| L_Eol : lang Eol ""
| L_Seq r1 r2 w1 w2 :
    lang r1 w1 -> lang r2 w2 -> lang (Seq r1 r2) (w1 ++ w2)
| L_AltL r1 r2 w : lang r1 w -> lang (Alt r1 r2) w
| L_AltR r1 r2 w : lang r2 w -> lang (Alt r1 r2) w
| L_Group n r w : lang r w -> lang (Group n r) w
| L_QuantStop r min max g :
    min = 0 \/ max = Some 0 -> lang (Quant r min max g) ""
| L_QuantIter r min max g w1 w2 :
    max <> Some 0 ->
    lang r w1 ->
    lang (Quant r (pred min) (option_map pred max) g) w2 ->
    lang (Quant r min max g) (w1 ++ w2).

(** ** Runs of the matcher

    [y] is reached from [x] by consuming a text [w] of the language of
    [r]. *)
Definition consumes (r : regex) (x y : State) : Prop :=
  exists w : string,
    rest x = (w ++ rest y)%string /\
    endIndex y = endIndex x + String.length w /\
    lang r w.

(** Inversion of [lang] on a pattern whose head is known. *)
Ltac invert_lang :=
  repeat match goal with
    | H : lang Eps _ |- _ => inversion H; subst; clear H
    | H : lang (Chr _) _ |- _ => inversion H; subst; clear H
    | H : lang Digit _ |- _ => inversion H; subst; clear H
    | H : lang (Class _) _ |- _ => inversion H; subst; clear H
    | H : lang Bol _ |- _ => inversion H; subst; clear H
    | H : lang Eol _ |- _ => inversion H; subst; clear H
    | H : lang (Seq _ _) _ |- _ => inversion H; subst; clear H
    | H : lang (Alt _ _) _ |- _ => inversion H; subst; clear H
    | H : lang (Group _ _) _ |- _ => inversion H; subst; clear H
    end.

(** ** Static analyses of a pattern *)

(** Every match of the pattern starts at index 0. *)
Fixpoint anchored_start (r : regex) : bool :=
  match r with
  | Bol => true
  | Seq r1 r2 => anchored_start r1 || anchored_start r2
  | Alt r1 r2 => anchored_start r1 && anchored_start r2
  | Group _ r' => anchored_start r'
  | _ => false
  end.

(** Every match of the pattern ends at the end of the input. *)
Fixpoint anchored_end (r : regex) : bool :=
  match r with
  | Eol => true
  | Seq r1 r2 => anchored_end r2 || anchored_end r1
  | Alt r1 r2 => anchored_end r1 && anchored_end r2
  | Group _ r' => anchored_end r'
  | _ => false
  end.

(** The pattern may match the empty text. *)
Fixpoint nullable (r : regex) : bool :=
  match r with
  | Eps | Bol | Eol => true
  | Chr _ | Digit | Class _ => false
  | Seq r1 r2 => nullable r1 && nullable r2
  | Alt r1 r2 => nullable r1 || nullable r2
  | Group _ r' => nullable r'
  | Quant r' min max _ =>
      (min =? 0) || match max with Some 0 => true | _ => false end
      || nullable r'
  end.

(** [c] may be the last character of a text that the pattern matches. *)
Fixpoint may_end_with (r : regex) (c : ascii) : bool :=
  match r with
  | Eps | Bol | Eol => false
  | Chr a => Ascii.eqb a c
  | Digit => is_digit c
  | Class cs => mem_ascii c cs
  | Seq r1 r2 => may_end_with r2 c || (nullable r2 && may_end_with r1 c)
  | Alt r1 r2 => may_end_with r1 c || may_end_with r2 c
  | Group _ r' => may_end_with r' c
  | Quant r' _ _ _ => may_end_with r' c
  end.

Fixpoint last_char (s : string) : option ascii :=
  match s with
  | EmptyString => None
  | String c EmptyString => Some c
  | String _ s' => last_char s'
  end.

(** [s] ends with [suffix]. *)
Definition ends_with (suffix s : string) : bool :=
  (substring (String.length s - String.length suffix)
     (String.length suffix) s =? suffix)%string
  && (String.length suffix <=? String.length s).

(** The rules of the catalog, field after field. *)
Definition all_matchers : list IFieldMatcher :=
  flat_map matchers SPECIFICATION.

Definition value_eqb (v1 v2 : value) : bool :=
  match v1, v2 with
  | VNull, VNull => true
  | VUndefined, VUndefined => true
  | VStr s1, VStr s2 => (s1 =? s2)%string
  | _, _ => false
  end.

Definition digits : list ascii :=
  ["0"; "1"; "2"; "3"; "4"; "5"; "6"; "7"; "8"; "9"]%char.

(** The text made of the three characters [a], [b], [c]. *)
Definition str3 (a b c : ascii) : string := String a (String b (String c "")).

(** ** The tokens of a line *)

(** [t] is a candidate as it stands, or three consecutive candidates
    joined by spaces. *)
Definition raw_or_merge3 (parts : list string) (t : string) : Prop :=
  In t parts \/
  exists i a b c,
    nth_error parts i = Some a /\
    nth_error parts (i + 1) = Some b /\
    nth_error parts (i + 2) = Some c /\
    t = merge3 a b c.

(** ** The aggregation, result by result *)

(** The entry that the match [m] of the result [mr] becomes. *)
Definition entry_of (mr : ITokenMatchResult) (m : ITokenMatch) : FieldEntry :=
  mkEntry (field_match_kind m) (token mr) (standardized_value m).

(** The match [m] names the field [kind]. *)
Definition names (kind : string) (m : ITokenMatch) : bool :=
  (spec_field_kind m =? kind)%string.

(** What one result contributes to the field [kind]: one entry for each
    of its matches that names the field. *)
Definition contribution (kind : string) (mr : ITokenMatchResult)
  : list FieldEntry :=
  map (entry_of mr) (filter (names kind) (matches mr)).

(** What one result contributes to UNRECOGNIZED. *)
Definition unrecognized_entry (mr : ITokenMatchResult) : list FieldEntry :=
  match matches mr with
  | [] => [mkEntry "UNRECOGNIZED" (token mr) (token mr)]
  | _ :: _ => []
  end.

Definition catalog_kinds : list string := map field_kind SPECIFICATION.

(** The match [m] names a field of the catalog. *)
Definition names_catalog_field (m : ITokenMatch) : bool :=
  existsb (fun kind => names kind m) catalog_kinds.

(** ** The POUNDS rule on the texts built from three digits *)
Definition pounds_check (a b c : ascii) : bool :=
  value_eqb (match_ POUNDS (str3 a b c ++ "#")) (VStr (str3 a b c))
  && value_eqb (match_ POUNDS (str3 a b c ++ " LB")) (VStr (str3 a b c))
  && value_eqb (match_ POUNDS ("CL " ++ str3 a b c)) (VStr (str3 a b c))
  && value_eqb (match_ POUNDS (str3 a b c ++ "CL")) VNull
  && forallb
       (fun d => value_eqb (match_ POUNDS (str3 a b c ++ String d "")) VNull)
       digits.

(** The third sample line, and the same material codes separated by a
    comma. *)
Definition line3 : string :=
  quoted "FLG BLIND, RF,CL 150, FCS A105 ASME B16.5, 20".
Definition line3_separated : string :=
  quoted "FLG BLIND, RF,CL 150, FCS A105, ASME B16.5, 20".

(** ** Splitting at commas *)

(** The pieces of [s] cut at every comma, a comma taking with it the
    space that follows it, if any; [piece] is the text read since the
    last cut. *)
Fixpoint split_commas (piece s : string) : list string :=
  match s with
  | EmptyString => [piece]
  | String c s' =>
      if Ascii.eqb c "," then
        piece ::
        match s' with
        | String c' s'' =>
            if Ascii.eqb c' " " then split_commas "" s''
            else split_commas "" s'
        | EmptyString => split_commas "" s'
        end
      else split_commas (piece ++ String c "") s'
  end.

(** The number of occurrences of the character [a] in [s]. *)
Fixpoint count_char (a : ascii) (s : string) : nat :=
  match s with
  | EmptyString => 0
  | String c s' => (if Ascii.eqb c a then 1 else 0) + count_char a s'
  end.

(** [parts] with the separators [seps] put back between them. *)
Fixpoint interleave (parts seps : list string) : string :=
  match parts, seps with
  | p :: parts', sep :: seps' => (p ++ sep ++ interleave parts' seps')%string
  | p :: _, [] => p
  | [], _ => ""%string
  end.

(** ** Telling two patterns apart *)

(** [c] may be the first character of a text that the pattern matches. *)
Fixpoint may_start_with (r : regex) (c : ascii) : bool :=
  match r with
  | Eps | Bol | Eol => false
  | Chr a => Ascii.eqb a c
  | Digit => is_digit c
  | Class cs => mem_ascii c cs
  | Seq r1 r2 => may_start_with r1 c || (nullable r1 && may_start_with r2 c)
  | Alt r1 r2 => may_start_with r1 c || may_start_with r2 c
  | Group _ r' => may_start_with r' c
  | Quant r' _ _ _ => may_start_with r' c
  end.

Definition first_char (s : string) : option ascii :=
  match s with
  | EmptyString => None
  | String c _ => Some c
  end.

(** The 256 characters. *)
Definition all_ascii : list ascii := map ascii_of_nat (seq 0 256).

(** Some character passes both tests. *)
Definition share_char (p1 p2 : ascii -> bool) : bool :=
  existsb (fun c => p1 c && p2 c) all_ascii.

(** The first or the last character tells the texts of [r1] from those
    of [r2]. *)
Definition separable (r1 r2 : regex) : bool :=
  negb (nullable r1)
  && (negb (share_char (may_start_with r1) (may_start_with r2))
      || negb (share_char (may_end_with r1) (may_end_with r2))).

(** Every character of [s] is a digit. *)
Fixpoint all_digits (s : string) : bool :=
  match s with
  | EmptyString => true
  | String c s' => is_digit c && all_digits s'
  end.

(** The rules of the catalog, each with its field. *)
Definition catalog_rules : list (ISpecField * IFieldMatcher) :=
  flat_map (fun sf => map (pair sf) (matchers sf)) SPECIFICATION.

(** ** The shapes of the tokens of the numeric rules *)

(** An alloy code: an optional [S], [A], three digits, an optional [N]. *)
Definition steel_code (s_ : bool) (a b c : ascii) (n : bool) : string :=
  ((if s_ then "S" else "") ++ "A" ++ str3 a b c
   ++ (if n then "N" else ""))%string.

(** The ways of writing the schedule prefix and its separator. *)
Definition schedule_prefixes : list string :=
  ["S-"; "S "; "SCH-"; "SCH "; "SCHEDULE-"; "SCHEDULE "]%string.

(** A nonempty text of digits. *)
Definition number (s : string) : Prop :=
  all_digits s = true /\ s <> ""%string.

(** ** Rows *)

(** The entries that one result puts in its row, over all the fields. *)
Definition cells (mr : ITokenMatchResult) : list FieldEntry :=
  flat_map (fun sf => contribution (field_kind sf) mr) SPECIFICATION
  ++ unrecognized_entry mr.

(** Two rows put side by side, field by field. *)
Definition append_rows (row1 row2 : list IPopulatedSpecField)
  : list IPopulatedSpecField :=
  map (fun ff =>
         mkPopulated (populated_kind (fst ff))
           (populated_matches (fst ff) ++ populated_matches (snd ff)))
    (combine row1 row2).

(** ** Patterns on which the matcher is complete *)

(** No [^] in the pattern. *)
Fixpoint bol_free (r : regex) : bool :=
  match r with
  | Bol => false
  | Seq r1 r2 | Alt r1 r2 => bol_free r1 && bol_free r2
  | Group _ r' | Quant r' _ _ _ => bol_free r'
  | _ => true
  end.

(** No [$] in the pattern. *)
Fixpoint eol_free (r : regex) : bool :=
  match r with
  | Eol => false
  | Seq r1 r2 | Alt r1 r2 => eol_free r1 && eol_free r2
  | Group _ r' | Quant r' _ _ _ => eol_free r'
  | _ => true
  end.

(** [$] can only be the last item of the pattern. *)
Fixpoint eol_last (r : regex) : bool :=
  match r with
  | Eol => true
  | Seq r1 r2 => eol_free r1 && eol_last r2
  | _ => eol_free r
  end.

(** No quantified part can match the empty text. *)
Fixpoint bodies_consume (r : regex) : bool :=
  match r with
  | Seq r1 r2 | Alt r1 r2 => bodies_consume r1 && bodies_consume r2
  | Group _ r' => bodies_consume r'
  | Quant r' _ _ _ => negb (nullable r') && bodies_consume r'
  | _ => true
  end.

(** A state reached from [x] by consuming [w], with [t] left. *)
Definition arrives (r : regex) (x : State) (w t : string) : Prop :=
  exists y, In y (run r x) /\ rest y = t /\
            endIndex y = endIndex x + String.length w.

(** The pattern is [^] followed by a part without [^], where [$] can
    only come last and quantified parts consume. *)
Definition well_anchored (re : regex) : bool :=
  match re with
  | Seq Bol r => bol_free r && eol_last r && bodies_consume r
  | _ => false
  end.

(** ** The vocabularies of the rules that return a constant *)

Definition flange_words : list string := ["FLANGE"; "FLNG"; "FLG"]%string.
Definition pipe_words : list string := ["PIPE"%string].
Definition extra_heavy_words : list string :=
  ["XH"; "XHB"; "EXTRA HEAVY"]%string.
Definition carbon_steel_words : list string :=
  ["CS"; "CARBON"; "CARBON STEEL"]%string.

(** [WLD] or [WELD], then [NCK] or [NECK] with or without a space before
    it, then nothing or a way of writing [ FLANGE]; or [WN] or [WNF]
    followed by [WELD]. *)
Definition weld_neck_words : list string :=
  flat_map
    (fun weld =>
       flat_map
         (fun neck =>
            map (fun flange => (weld ++ neck ++ flange)%string)
              [""; " FLNG"; " FLANG"; " FLNGE"; " FLANGE"]%string)
         ["NCK"; "NECK"; " NCK"; " NECK"]%string)
    ["WLD"; "WELD"]%string
  ++ ["WNWELD"; "WNFWELD"]%string.

Definition is_word (words : list string) (s : string) : bool :=
  existsb (String.eqb s) words.

(** The STEEL TYPE rule on the alloy codes built from three digits. *)
Definition steel_check (a b c : ascii) : bool :=
  forallb
    (fun fcs : bool =>
       forallb
         (fun s_ : bool =>
            forallb
              (fun n : bool =>
                 value_eqb
                   (match_ STEEL_TYPE
                      ((if fcs then "FCS " else "")
                       ++ steel_code s_ a b c n))
                   (VStr (steel_code s_ a b c n)))
              [false; true])
         [false; true])
    [false; true].

(** ** How often a character can occur *)

(** A bound on the number of occurrences of [a] in the texts of the
    pattern; [None] when the analysis finds none. *)
Fixpoint max_count (a : ascii) (r : regex) : option nat :=
  match r with
  | Eps | Bol | Eol => Some 0
  | Chr c => Some (if Ascii.eqb c a then 1 else 0)
  | Digit => Some (if is_digit a then 1 else 0)
  | Class cs => Some (if mem_ascii a cs then 1 else 0)
  | Seq r1 r2 =>
      match max_count a r1, max_count a r2 with
      | Some k1, Some k2 => Some (k1 + k2)
      | _, _ => None
      end
  | Alt r1 r2 =>
      match max_count a r1, max_count a r2 with
      | Some k1, Some k2 => Some (Nat.max k1 k2)
      | _, _ => None
      end
  | Group _ r' => max_count a r'
  | Quant r' _ max _ =>
      match max_count a r', max with
      | Some 0, _ => Some 0
      | Some k, Some n => Some (n * k)
      | _, _ => None
      end
  end.

(* ================================================================== *)
(** * Strings *)
(* ================================================================== *)

Section Strings.

Lemma append_nil_r (s : string) : (s ++ "")%string = s.
Proof. induction s; simpl; congruence. Qed.

Lemma append_assoc (s t u : string) :
  ((s ++ t) ++ u)%string = (s ++ (t ++ u))%string.
Proof. induction s; simpl; congruence. Qed.

Lemma length_append (s t : string) :
  String.length (s ++ t) = String.length s + String.length t.
Proof. induction s; simpl; auto. Qed.

Lemma substring_prefix (w t : string) :
  substring 0 (String.length w) (w ++ t) = w.
Proof.
  induction w as [|c w IH]; simpl.
  - destruct t; reflexivity.
  - now rewrite IH.
Qed.

Lemma last_char_none (s : string) : last_char s = None -> s = "".
Proof.
  induction s as [|c s IH]; simpl; auto.
  destruct s; [discriminate|]. intros H. specialize (IH H). discriminate.
Qed.

Lemma last_char_append (s t : string) :
  last_char (s ++ t) =
  match last_char t with
  | Some c => Some c
  | None => last_char s
  end.
Proof.
  induction s as [|c s IH]; simpl.
  - destruct (last_char t); reflexivity.
  - destruct s as [|c' s]; simpl in *.
    + destruct t as [|c' t]; [reflexivity|].
      change (last_char (String c (String c' t)))
        with (last_char (String c' t)).
      destruct (last_char (String c' t)) eqn:E; [reflexivity|].
      apply last_char_none in E. discriminate.
    + exact IH.
Qed.

End Strings.

(* ================================================================== *)
(** * The matcher is sound for the language of the pattern *)
(* ================================================================== *)

Section MatcherSoundness.

Lemma char_matcher_inv (p : ascii -> bool) (x y : State) :
  In y (char_matcher p x) ->
  exists c, p c = true /\ rest x = String c (rest y) /\
            endIndex y = S (endIndex x).
Proof.
  unfold char_matcher. destruct (rest x) as [|a s] eqn:E; [contradiction|].
  destruct (p a) eqn:Hp; [|contradiction].
  intros [<-|[]]. exists a. simpl. auto.
Qed.

Lemma consumes_char (r : regex) (p : ascii -> bool) (x y : State) :
  (forall c, p c = true -> lang r (String c "")) ->
  In y (char_matcher p x) -> consumes r x y.
Proof.
  intros Hr Hy. apply char_matcher_inv in Hy as (c & Hp & Hrest & Hidx).
  exists (String c ""). simpl. repeat split; auto. lia.
Qed.

Lemma consumes_seq (r1 r2 : regex) (x y z : State) :
  consumes r1 x y -> consumes r2 y z -> consumes (Seq r1 r2) x z.
Proof.
  intros (w1 & E1 & I1 & L1) (w2 & E2 & I2 & L2).
  exists (w1 ++ w2)%string. rewrite append_assoc, length_append, <- E2.
  repeat split; auto using L_Seq. lia.
Qed.

Section Repeat.

Variable r : regex.
Hypothesis run_r : forall x y, In y (run r x) -> consumes r x y.

Lemma RepeatMatcher_sound (parens : list nat) (greedy : bool) :
  forall fuel min max x y,
    In y (RepeatMatcher fuel (run r) parens min max greedy x) ->
    consumes (Quant r min max greedy) x y.
Proof.
  induction fuel as [|fuel IH]; intros min max x y Hy; [contradiction|].
  assert (Hstop : min = 0 \/ max = Some 0 ->
                  consumes (Quant r min max greedy) x x).
  { intros H. exists ""%string. simpl. repeat split; auto using L_QuantStop. }
  assert (Hiter : max <> Some 0 ->
    forall x1,
      In x1 (run r (mkState (endIndex x) (rest x)
                      (reset_captures parens (captures x)))) ->
      In y (if (min =? 0) && (endIndex x1 =? endIndex x) then []
            else RepeatMatcher fuel (run r) parens (pred min)
                   (option_map pred max) greedy x1) ->
      consumes (Quant r min max greedy) x y).
  { intros Hmax x1 Hx1 Hy1.
    destruct ((min =? 0) && (endIndex x1 =? endIndex x)); [contradiction|].
    apply run_r in Hx1 as (w1 & E1 & I1 & L1). simpl in E1, I1.
    apply IH in Hy1 as (w2 & E2 & I2 & L2).
    exists (w1 ++ w2)%string. rewrite append_assoc, length_append, <- E2.
    repeat split; auto using L_QuantIter. lia. }
  simpl in Hy.
  destruct max as [[|k]|].
  - destruct Hy as [<-|[]]. auto.
  - destruct (min =? 0) eqn:Hmin; simpl in Hy.
    + apply Nat.eqb_eq in Hmin.
      destruct greedy.
      * apply in_app_or in Hy as [Hy|[<-|[]]]; auto.
        apply in_flat_map in Hy as (x1 & Hx1 & Hy).
        eapply Hiter; eauto. discriminate.
      * destruct Hy as [<-|Hy]; auto.
        apply in_flat_map in Hy as (x1 & Hx1 & Hy).
        eapply Hiter; eauto. discriminate.
    + apply in_flat_map in Hy as (x1 & Hx1 & Hy).
      eapply Hiter; eauto. discriminate.
  - destruct (min =? 0) eqn:Hmin; simpl in Hy.
    + apply Nat.eqb_eq in Hmin.
      destruct greedy.
      * apply in_app_or in Hy as [Hy|[<-|[]]]; auto.
        apply in_flat_map in Hy as (x1 & Hx1 & Hy).
        eapply Hiter; eauto. discriminate.
      * destruct Hy as [<-|Hy]; auto.
        apply in_flat_map in Hy as (x1 & Hx1 & Hy).
        eapply Hiter; eauto. discriminate.
    + apply in_flat_map in Hy as (x1 & Hx1 & Hy).
      eapply Hiter; eauto. discriminate.
Qed.

End Repeat.

Theorem run_sound (r : regex) :
  forall x y, In y (run r x) -> consumes r x y.
Proof.
  induction r as [ |c| |cs| | |r1 IH1 r2 IH2|r1 IH1 r2 IH2|n r IH
                 |r IH min max greedy]; intros x y Hy; simpl in Hy.
  - destruct Hy as [<-|[]]. exists ""%string. simpl. auto using L_Eps.
  - eapply consumes_char; [|exact Hy].
    intros a Ha. apply Ascii.eqb_eq in Ha as <-. constructor.
  - eapply consumes_char; [|exact Hy]. intros a Ha. now constructor.
  - eapply consumes_char; [|exact Hy]. intros a Ha. now constructor.
  - destruct (endIndex x =? 0); [|contradiction].
    destruct Hy as [<-|[]]. exists ""%string. simpl. auto using L_Bol.
  - destruct (rest x) eqn:E; [|contradiction].
    destruct Hy as [<-|[]]. exists ""%string. simpl. auto using L_Eol.
  - apply in_flat_map in Hy as (x1 & Hx1 & Hy).
    eapply consumes_seq; eauto.
  - apply in_app_or in Hy as [Hy|Hy].
    + apply IH1 in Hy as (w & ? & ? & ?). exists w. auto using L_AltL.
    + apply IH2 in Hy as (w & ? & ? & ?). exists w. auto using L_AltR.
  - apply in_map_iff in Hy as (y1 & <- & Hy).
    apply IH in Hy as (w & ? & ? & ?). exists w. simpl. auto using L_Group.
  - eapply RepeatMatcher_sound; eauto.
Qed.

Corollary run_monotone (r : regex) (x y : State) :
  In y (run r x) ->
  endIndex x <= endIndex y /\
  endIndex y + String.length (rest y) = endIndex x + String.length (rest x).
Proof.
  intros H. apply run_sound in H as (w & E & I & _).
  rewrite E, length_append. lia.
Qed.

(** ** Anchors *)

Lemma anchored_start_sound (r : regex) :
  anchored_start r = true ->
  forall x y, In y (run r x) -> endIndex x = 0.
Proof.
  induction r as [ |c| |cs| | |r1 IH1 r2 IH2|r1 IH1 r2 IH2|n r IH
                 |r IH min max greedy]; simpl; try discriminate;
    intros Ha x y Hy.
  - destruct (endIndex x =? 0) eqn:E; [|contradiction].
    now apply Nat.eqb_eq.
  - apply in_flat_map in Hy as (x1 & Hx1 & Hy).
    apply orb_true_iff in Ha as [Ha|Ha]; [eauto|].
    specialize (IH2 Ha _ _ Hy). apply run_monotone in Hx1. lia.
  - apply andb_true_iff in Ha as [Ha1 Ha2].
    apply in_app_or in Hy as [Hy|Hy]; eauto.
  - apply in_map_iff in Hy as (y1 & _ & Hy). eauto.
Qed.

Lemma anchored_end_sound (r : regex) :
  anchored_end r = true ->
  forall x y, In y (run r x) -> rest y = ""%string.
Proof.
  induction r as [ |c| |cs| | |r1 IH1 r2 IH2|r1 IH1 r2 IH2|n r IH
                 |r IH min max greedy]; simpl; try discriminate;
    intros Ha x y Hy.
  - destruct (rest x) eqn:E; [|contradiction]. now destruct Hy as [<-|[]].
  - apply in_flat_map in Hy as (x1 & Hx1 & Hy).
    apply orb_true_iff in Ha as [Ha|Ha]; [eauto|].
    specialize (IH1 Ha _ _ Hx1).
    apply run_sound in Hy as (w & E & _). rewrite IH1 in E.
    destruct w; [|discriminate]. now simpl in E.
  - apply andb_true_iff in Ha as [Ha1 Ha2].
    apply in_app_or in Hy as [Hy|Hy]; eauto.
  - apply in_map_iff in Hy as (y1 & <- & Hy). simpl. eauto.
Qed.

Lemma search_not_at_start (re : regex) :
  anchored_start re = true ->
  forall s i, search re (S i) s = None.
Proof.
  intros Ha. induction s as [|c s IH]; intros i; simpl.
  - destruct (run re (mkState (S i) "" [])) as [|y l] eqn:E; [reflexivity|].
    assert (Hy : In y (run re (mkState (S i) "" []))) by (rewrite E; now left).
    apply (anchored_start_sound _ Ha) in Hy. discriminate.
  - destruct (run re (mkState (S i) (String c s) [])) as [|y l] eqn:E;
      [apply IH|].
    assert (Hy : In y (run re (mkState (S i) (String c s) [])))
      by (rewrite E; now left).
    apply (anchored_start_sound _ Ha) in Hy. discriminate.
Qed.

(** A pattern that is anchored at both ends matches the whole input or
    nothing: the match array has index 0, [m[0]] is the input, and the
    input is in the language of the pattern. *)
Theorem exec_anchored (re : regex) (s : string) (m : MatchArray) :
  anchored_start re = true ->
  anchored_end re = true ->
  exec re s = Some m ->
  index m = 0 /\ whole m = s /\ lang re s.
Proof.
  intros Hs He. unfold exec.
  assert (Hrun : forall y l, run re (mkState 0 s []) = y :: l ->
            substring 0 (endIndex y - 0) s = s /\ lang re s).
  { intros y l E.
    assert (Hy : In y (run re (mkState 0 s []))) by (rewrite E; now left).
    pose proof (anchored_end_sound _ He _ _ Hy) as Hrest.
    apply run_sound in Hy as (w & E1 & I1 & L1). simpl in E1, I1.
    rewrite Hrest, append_nil_r in E1. subst w.
    rewrite I1, Nat.sub_0_r. split; [|exact L1].
    rewrite <- (append_nil_r s) at 2. rewrite substring_prefix.
    reflexivity. }
  destruct s as [|c s]; simpl.
  - destruct (run re (mkState 0 "" [])) as [|y l] eqn:E; [discriminate|].
    intros [= <-]. simpl. destruct (Hrun _ _ eq_refl). auto.
  - destruct (run re (mkState 0 (String c s) [])) as [|y l] eqn:E.
    + now rewrite search_not_at_start.
    + intros [= <-]. simpl. destruct (Hrun _ _ eq_refl). auto.
Qed.

End MatcherSoundness.

(* ================================================================== *)
(** * The fuel of [RepeatMatcher] *)
(* ================================================================== *)

Section Fuel.

Lemma flat_map_ext_In {A B : Type} (f g : A -> list B) (l : list A) :
  (forall a, In a l -> f a = g a) -> flat_map f l = flat_map g l.
Proof.
  induction l as [|a l IH]; simpl; intros H; [reflexivity|].
  rewrite (H a), IH; auto.
Qed.

(** Any two amounts of fuel above [min + length (rest x)] give the same
    result: the bound used by [run] is never exhausted. *)
Lemma RepeatMatcher_fuel (r : regex) (parens : list nat) (greedy : bool) :
  forall f1 f2 min max x,
    min + String.length (rest x) < f1 ->
    min + String.length (rest x) < f2 ->
    RepeatMatcher f1 (run r) parens min max greedy x =
    RepeatMatcher f2 (run r) parens min max greedy x.
Proof.
  induction f1 as [|f1 IH]; intros f2 min max x H1 H2; [lia|].
  destruct f2 as [|f2]; [lia|]. simpl.
  assert (Hd : flat_map
    (fun y => if (min =? 0) && (endIndex y =? endIndex x) then []
              else RepeatMatcher f1 (run r) parens (pred min)
                     (option_map pred max) greedy y)
    (run r (mkState (endIndex x) (rest x)
              (reset_captures parens (captures x)))) =
    flat_map
    (fun y => if (min =? 0) && (endIndex y =? endIndex x) then []
              else RepeatMatcher f2 (run r) parens (pred min)
                     (option_map pred max) greedy y)
    (run r (mkState (endIndex x) (rest x)
              (reset_captures parens (captures x))))).
  { apply flat_map_ext_In. intros y Hy.
    apply run_monotone in Hy as [Hle Hlen]. simpl in Hle, Hlen.
    destruct (min =? 0) eqn:Hmin; simpl.
    - destruct (endIndex y =? endIndex x) eqn:Hidx; [reflexivity|].
      apply Nat.eqb_eq in Hmin. apply Nat.eqb_neq in Hidx.
      apply IH; lia.
    - apply Nat.eqb_neq in Hmin. apply IH; lia. }
  destruct max as [[|k]|]; try reflexivity; now rewrite Hd.
Qed.

(** [run] on a quantifier satisfies the defining equation of the
    abstract operation RepeatMatcher. *)
Theorem run_Quant (r : regex) (min : nat) (max : option nat) (greedy : bool)
    (x : State) :
  run (Quant r min max greedy) x =
  match max with
  | Some 0 => [x]
  | _ =>
      let d (y : State) : list State :=
        if (min =? 0) && (endIndex y =? endIndex x) then []
        else run (Quant r (pred min) (option_map pred max) greedy) y in
      let xr := mkState (endIndex x) (rest x)
                  (reset_captures (groups r) (captures x)) in
      if negb (min =? 0) then flat_map d (run r xr)
      else if greedy then flat_map d (run r xr) ++ [x]
      else x :: flat_map d (run r xr)
  end.
Proof.
  simpl run. rewrite Nat.add_1_r. simpl RepeatMatcher.
  assert (Hd : flat_map
    (fun y => if (min =? 0) && (endIndex y =? endIndex x) then []
              else RepeatMatcher (min + String.length (rest x)) (run r)
                     (groups r) (pred min) (option_map pred max) greedy y)
    (run r (mkState (endIndex x) (rest x)
              (reset_captures (groups r) (captures x)))) =
    flat_map
    (fun y => if (min =? 0) && (endIndex y =? endIndex x) then []
              else RepeatMatcher (pred min + String.length (rest y) + 1)
                     (run r) (groups r) (pred min) (option_map pred max)
                     greedy y)
    (run r (mkState (endIndex x) (rest x)
              (reset_captures (groups r) (captures x))))).
  { apply flat_map_ext_In. intros y Hy.
    apply run_monotone in Hy as [Hle Hlen]. simpl in Hle, Hlen.
    destruct (min =? 0) eqn:Hmin; simpl.
    - destruct (endIndex y =? endIndex x) eqn:Hidx; [reflexivity|].
      apply Nat.eqb_eq in Hmin. apply Nat.eqb_neq in Hidx.
      apply RepeatMatcher_fuel; lia.
    - apply Nat.eqb_neq in Hmin. apply RepeatMatcher_fuel; lia. }
  destruct max as [[|k]|]; try reflexivity; cbv zeta; now rewrite Hd.
Qed.

End Fuel.

(* ================================================================== *)
(** * The last character of a match *)
(* ================================================================== *)

Section LastCharacter.

Lemma lang_may_end_with (r : regex) (w : string) :
  lang r w ->
  match last_char w with
  | Some c => may_end_with r c = true
  | None => nullable r = true
  end.
Proof.
  induction 1 as [ |c|c Hc|cs c Hc| | |r1 r2 w1 w2 _ IH1 _ IH2
                 |r1 r2 w _ IH|r1 r2 w _ IH|n r w _ IH
                 |r min max g Hstop|r min max g w1 w2 Hmax _ IH1 _ IH2];
    simpl; auto.
  - apply Ascii.eqb_refl.
  - rewrite last_char_append.
    destruct (last_char w2) as [c|].
    + now rewrite IH2.
    + rewrite IH2. destruct (last_char w1) as [c|].
      * rewrite IH1. apply orb_true_r.
      * now rewrite IH1.
  - destruct (last_char w); rewrite IH; auto using orb_true_r.
  - destruct (last_char w); rewrite IH; auto using orb_true_r.
  - destruct Hstop as [->| ->]; simpl; auto using orb_true_r.
    destruct (min =? 0); reflexivity.
  - rewrite last_char_append. simpl in IH2.
    destruct (last_char w2) as [c|]; [exact IH2|].
    destruct (last_char w1) as [c|]; [exact IH1|].
    rewrite IH1. apply orb_true_r.
Qed.

Lemma last_char_snoc (s : string) (c : ascii) :
  last_char (s ++ String c "") = Some c.
Proof. now rewrite last_char_append. Qed.

(** A pattern anchored at both ends that is not nullable and cannot end
    with [c] matches no input that ends with [c]. *)
Lemma exec_last_char (re : regex) (s : string) (c : ascii) :
  anchored_start re = true ->
  anchored_end re = true ->
  nullable re = false ->
  may_end_with re c = false ->
  exec re (s ++ String c "") = None.
Proof.
  intros Hs He Hn Hc.
  destruct (exec re (s ++ String c "")) as [m|] eqn:E; [|reflexivity].
  apply exec_anchored in E as (_ & _ & L); auto.
  apply lang_may_end_with in L. rewrite last_char_snoc in L. congruence.
Qed.

End LastCharacter.

(* ================================================================== *)
(** * The catalog and [parseToken] *)
(* ================================================================== *)

Section Catalog.

Lemma In_all_matchers (sf : ISpecField) (fm : IFieldMatcher) :
  In sf SPECIFICATION -> In fm (matchers sf) -> In fm all_matchers.
Proof. intros H1 H2. apply in_flat_map. eauto. Qed.

Lemma catalog_anchored (fm : IFieldMatcher) :
  In fm all_matchers ->
  anchored_start (pattern fm) = true /\ anchored_end (pattern fm) = true.
Proof.
  assert (H : forallb (fun fm => anchored_start (pattern fm)
                                 && anchored_end (pattern fm))
                all_matchers = true) by reflexivity.
  intros Hin. rewrite forallb_forall in H.
  now apply andb_true_iff, H.
Qed.

Lemma catalog_closing_brace (fm : IFieldMatcher) :
  In fm all_matchers ->
  nullable (pattern fm) = false /\ may_end_with (pattern fm) "}" = false.
Proof.
  assert (H : forallb (fun fm => negb (nullable (pattern fm))
                                 && negb (may_end_with (pattern fm) "}"))
                all_matchers = true) by reflexivity.
  intros Hin. rewrite forallb_forall in H.
  apply H, andb_true_iff in Hin as [H1 H2].
  now apply negb_true_iff in H1, H2.
Qed.

(** Loops that only push: the result is the initial list followed by
    what each element contributes. *)
Lemma fold_left_push {A B : Type} (step : list B -> A -> list B)
    (f : A -> list B) :
  (forall acc a, step acc a = acc ++ f a) ->
  forall l init, fold_left step l init = init ++ flat_map f l.
Proof.
  intros Hstep. induction l as [|a l IH]; intros init; simpl.
  - now rewrite app_nil_r.
  - now rewrite IH, Hstep, <- app_assoc.
Qed.

Lemma try_matcher_push (t : string) (sf : ISpecField)
    (acc : list ITokenMatch) (fm : IFieldMatcher) :
  try_matcher t sf acc fm = acc ++ try_matcher t sf [] fm.
Proof.
  unfold try_matcher. destruct (match_ fm t) as [| |[|c v]]; simpl;
    now rewrite ?app_nil_r.
Qed.

(** The matches of a token, rule by rule in catalog order. *)
Lemma matches_parseToken (t : string) :
  matches (parseToken t) =
  flat_map (fun sf => flat_map (try_matcher t sf []) (matchers sf))
    SPECIFICATION.
Proof.
  unfold parseToken, matches.
  rewrite (fold_left_push _
             (fun sf => flat_map (try_matcher t sf []) (matchers sf))).
  - reflexivity.
  - intros acc sf. apply fold_left_push. intros. apply try_matcher_push.
Qed.

Lemma try_matcher_inv (t : string) (sf : ISpecField) (fm : IFieldMatcher)
    (m : ITokenMatch) :
  In m (try_matcher t sf [] fm) ->
  match_ fm t = VStr (standardized_value m) /\
  truthy (match_ fm t) = true /\
  spec_field_kind m = field_kind sf /\
  field_match_kind m = matcher_kind fm.
Proof.
  unfold try_matcher. destruct (match_ fm t) as [| |[|c v]]; simpl;
    try contradiction.
  intros [<-|[]]. simpl. auto.
Qed.

Lemma In_matches_parseToken (t : string) (m : ITokenMatch) :
  In m (matches (parseToken t)) ->
  exists sf fm,
    In sf SPECIFICATION /\ In fm (matchers sf) /\
    match_ fm t = VStr (standardized_value m) /\
    truthy (match_ fm t) = true /\
    spec_field_kind m = field_kind sf /\
    field_match_kind m = matcher_kind fm.
Proof.
  rewrite matches_parseToken. intros H.
  apply in_flat_map in H as (sf & Hsf & H).
  apply in_flat_map in H as (fm & Hfm & H).
  exists sf, fm. split; [exact Hsf|]. split; [exact Hfm|].
  now apply try_matcher_inv.
Qed.

(** A rule whose pattern does not match contributes nothing. *)
Lemma try_matcher_no_match (t : string) (sf : ISpecField)
    (fm : IFieldMatcher) :
  exec (pattern fm) t = None -> try_matcher t sf [] fm = [].
Proof. unfold try_matcher, match_. now intros ->. Qed.

Lemma flat_map_nil {A B : Type} (f : A -> list B) (l : list A) :
  (forall a, In a l -> f a = []) -> flat_map f l = [].
Proof.
  induction l as [|a l IH]; simpl; intros H; [reflexivity|].
  rewrite (H a), IH; auto.
Qed.

Lemma token_parseToken (t : string) : token (parseToken t) = t.
Proof. reflexivity. Qed.

Lemma map_token_parseToken (ts : list string) :
  map token (map parseToken ts) = ts.
Proof. rewrite map_map. simpl. apply map_id. Qed.

End Catalog.

(* ================================================================== *)
(** * The tokenizer *)
(* ================================================================== *)

Section Tokenizer.

(** ** [split] finishes *)

Lemma split_loop_total (re : regex) (str : string) :
  forall fuel p q A,
    p <= q ->
    2 * (String.length str - q) + (if p <? q then 1 else 0) < fuel ->
    exists parts, split_loop fuel re str p q A = Ok parts.
Proof.
  induction fuel as [|fuel IH]; intros p q A Hpq Hfuel; [lia|].
  simpl. destruct (q <? String.length str) eqn:Hq; [|eauto].
  apply Nat.ltb_lt in Hq.
  assert (Hnext : exists parts,
            split_loop fuel re str p (q + 1) A = Ok parts).
  { apply IH; [lia|]. destruct (p <? q + 1); destruct (p <? q); lia. }
  destruct (run re _) as [|z l] eqn:E; [exact Hnext|].
  assert (Hz : In z (run re (mkState q
                 (substring q (String.length str - q) str) [])))
    by (rewrite E; now left).
  apply run_monotone in Hz as [Hz _]. simpl in Hz.
  destruct (Nat.min (endIndex z) (String.length str) =? p) eqn:Hep;
    [exact Hnext|].
  apply Nat.eqb_neq in Hep. apply IH; [lia|].
  rewrite Nat.ltb_irrefl.
  destruct (p <? q) eqn:Hlt;
    [apply Nat.ltb_lt in Hlt | apply Nat.ltb_ge in Hlt]; lia.
Qed.

Lemma split_total (re : regex) (str : string) :
  exists parts, split re str = Ok parts.
Proof.
  unfold split. destruct (String.length str =? 0).
  - destruct (run re _); eauto.
  - apply split_loop_total; simpl; lia.
Qed.

(** ** One turn of the loop *)

Lemma token_at_Some (candidates : list ITokenMatchResult) (i : nat)
    (c : ITokenMatchResult) :
  nth_error candidates i = Some c -> token_at candidates i = Ok (token c).
Proof. unfold token_at. now intros ->. Qed.

Lemma nth_error_lt {A : Type} (l : list A) (i : nat) :
  i < List.length l -> exists a, nth_error l i = Some a.
Proof.
  intros H. destruct (nth_error l i) eqn:E; [eauto|].
  apply nth_error_None in E. lia.
Qed.

(** What [loop_body] returns when the cursor is inside the array: the
    3-way merge if it has a match, else the 2-way merge if it has one,
    else the candidate itself. *)
Lemma loop_body_cases (candidates : list ITokenMatchResult) (i : nat)
    (result : list string) :
  i < List.length candidates ->
  exists a,
    nth_error candidates i = Some a /\
    ((exists b c,
         nth_error candidates (i + 1) = Some b /\
         nth_error candidates (i + 2) = Some c /\
         has_matches (parseToken (merge3 (token a) (token b) (token c)))
           = true /\
         loop_body candidates i result =
           Ok (i + 2, result ++ [merge3 (token a) (token b) (token c)]))
     \/ (exists b,
         nth_error candidates (i + 1) = Some b /\
         has_matches (parseToken (merge2 (token a) (token b))) = true /\
         loop_body candidates i result =
           Ok (i + 1, result ++ [merge2 (token a) (token b)]))
     \/ loop_body candidates i result = Ok (i, result ++ [token a])).
Proof.
  intros Hi. destruct (nth_error_lt _ _ Hi) as [a Ha]. exists a.
  split; [exact Ha|].
  assert (Hsingle : push_single candidates i result
                    = Ok (i, result ++ [token a])).
  { unfold push_single. now rewrite (token_at_Some _ _ _ Ha). }
  assert (H2 :
    (exists b,
         nth_error candidates (i + 1) = Some b /\
         has_matches (parseToken (merge2 (token a) (token b))) = true /\
         try_merge2 candidates i result =
           Ok (i + 1, result ++ [merge2 (token a) (token b)]))
    \/ try_merge2 candidates i result = Ok (i, result ++ [token a])).
  { unfold try_merge2.
    destruct (2 <=? List.length candidates - i) eqn:H2; [|now right].
    apply Nat.leb_le in H2.
    destruct (@nth_error_lt _ candidates (i + 1)) as [b Hb]; [lia|].
    rewrite (token_at_Some _ _ _ Ha), (token_at_Some _ _ _ Hb). simpl.
    destruct (has_matches (parseToken (merge2 (token a) (token b)))) eqn:Hm;
      [left; eauto | now right]. }
  unfold loop_body.
  destruct (3 <=? List.length candidates - i) eqn:H3.
  - apply Nat.leb_le in H3.
    destruct (@nth_error_lt _ candidates (i + 1)) as [b Hb]; [lia|].
    destruct (@nth_error_lt _ candidates (i + 2)) as [c Hc]; [lia|].
    rewrite (token_at_Some _ _ _ Ha), (token_at_Some _ _ _ Hb),
      (token_at_Some _ _ _ Hc). simpl.
    destruct (has_matches
                (parseToken (merge3 (token a) (token b) (token c)))) eqn:Hm.
    + left. exists b, c. auto.
    + right. destruct H2 as [(b' & ? & ? & ->)| ->]; eauto.
  - right. destruct H2 as [(b' & ? & ? & ->)| ->]; eauto.
Qed.

(** ** The loop finishes *)

Lemma for_loop_total (candidates : list ITokenMatchResult) :
  forall fuel i result,
    List.length candidates - i < fuel ->
    exists toks, for_loop fuel candidates i result = Ok toks.
Proof.
  induction fuel as [|fuel IH]; intros i result Hfuel; [lia|].
  simpl. destruct (i <? List.length candidates) eqn:Hi; [|eauto].
  apply Nat.ltb_lt in Hi.
  destruct (loop_body_cases candidates i result Hi)
    as (a & _ & [(b & c & _ & _ & _ & ->)|[(b & _ & _ & ->)| ->]]);
    simpl; apply IH; lia.
Qed.

Theorem tokenizeLine_total (line : string) :
  exists toks, tokenizeLine line = Ok toks.
Proof.
  unfold tokenizeLine. destruct (split_total re_comma line) as [parts ->].
  simpl. apply for_loop_total. lia.
Qed.

(** ** No rule matches a text that ends with a closing brace *)

Lemma match_closing_brace (fm : IFieldMatcher) (s : string) :
  In fm all_matchers -> exec (pattern fm) (s ++ "}") = None.
Proof.
  intros Hin.
  destruct (catalog_anchored _ Hin), (catalog_closing_brace _ Hin).
  now apply exec_last_char.
Qed.

Lemma parseToken_closing_brace (s : string) :
  matches (parseToken (s ++ "}")) = [].
Proof.
  rewrite matches_parseToken.
  apply flat_map_nil. intros sf Hsf.
  apply flat_map_nil. intros fm Hfm.
  apply try_matcher_no_match, match_closing_brace.
  now apply In_all_matchers with sf.
Qed.

Lemma merge2_closing_brace (a b : string) :
  merge2 a b = ((a ++ " " ++ b) ++ "}")%string.
Proof. unfold merge2. now rewrite !append_assoc. Qed.

Lemma merge2_no_match (a b : string) :
  has_matches (parseToken (merge2 a b)) = false.
Proof.
  unfold has_matches.
  now rewrite merge2_closing_brace, parseToken_closing_brace.
Qed.

(** ** What the loop emits *)

Lemma nth_error_map_token (candidates : list ITokenMatchResult) (i : nat)
    (a : ITokenMatchResult) :
  nth_error candidates i = Some a ->
  nth_error (map token candidates) i = Some (token a).
Proof. intros H. now rewrite nth_error_map, H. Qed.

Lemma for_loop_emits (candidates : list ITokenMatchResult) :
  forall fuel i result toks,
    for_loop fuel candidates i result = Ok toks ->
    Forall (raw_or_merge3 (map token candidates)) result ->
    Forall (raw_or_merge3 (map token candidates)) toks.
Proof.
  induction fuel as [|fuel IH]; intros i result toks; [discriminate|].
  simpl. destruct (i <? List.length candidates) eqn:Hi;
    [|now intros [= <-]].
  apply Nat.ltb_lt in Hi.
  destruct (loop_body_cases candidates i result Hi)
    as (a & Ha & [(b & c & Hb & Hc & _ & ->)|[(b & _ & Hm & _)| ->]]);
    simpl.
  - intros Hloop Hres. apply (IH _ _ _ Hloop).
    apply Forall_app. split; [exact Hres|].
    constructor; [|constructor]. right.
    exists i, (token a), (token b), (token c).
    auto using nth_error_map_token.
  - now rewrite merge2_no_match in Hm.
  - intros Hloop Hres. apply (IH _ _ _ Hloop).
    apply Forall_app. split; [exact Hres|].
    constructor; [|constructor]. left.
    apply nth_error_In with i. now apply nth_error_map_token.
Qed.

(** The loop only appends to the tokens emitted so far. *)
Lemma for_loop_extends (candidates : list ITokenMatchResult) :
  forall fuel i result toks,
    for_loop fuel candidates i result = Ok toks ->
    exists more, toks = result ++ more.
Proof.
  induction fuel as [|fuel IH]; intros i result toks; [discriminate|].
  simpl. destruct (i <? List.length candidates) eqn:Hi.
  - apply Nat.ltb_lt in Hi.
    destruct (loop_body_cases candidates i result Hi)
      as (a & _ & [(b & c & _ & _ & _ & ->)|[(b & _ & _ & ->)| ->]]);
      simpl; intros Hloop; apply IH in Hloop as [more ->];
      rewrite <- app_assoc; eauto.
  - intros [= <-]. exists []. now rewrite app_nil_r.
Qed.

Lemma merge2_not_joined (a b : string) :
  merge2 a b <> (a ++ " " ++ b)%string.
Proof.
  rewrite merge2_closing_brace. intros E.
  apply (f_equal String.length) in E. rewrite length_append in E.
  simpl in E. lia.
Qed.

End Tokenizer.

(* ================================================================== *)
(** * The aggregator *)
(* ================================================================== *)

Section Aggregator.

Lemma flat_map_if_singleton {A B : Type} (p : A -> bool) (f : A -> B)
    (l : list A) :
  flat_map (fun a => if p a then [f a] else []) l = map f (filter p l).
Proof.
  induction l as [|a l IH]; simpl; [reflexivity|].
  destruct (p a); simpl; now rewrite IH.
Qed.

Lemma flat_map_singleton {A B : Type} (f : A -> B) (l : list A) :
  flat_map (fun a => [f a]) l = map f l.
Proof. induction l as [|a l IH]; simpl; [reflexivity|]. now rewrite IH. Qed.

Lemma populate_field_matches (sf : ISpecField)
    (rs : list ITokenMatchResult) :
  populated_matches (populate_field sf rs) =
  flat_map (contribution (field_kind sf)) rs.
Proof.
  unfold populate_field, populated_matches.
  rewrite (fold_left_push _ (contribution (field_kind sf))); [reflexivity|].
  intros acc mr. unfold contribution.
  rewrite <- flat_map_if_singleton.
  apply fold_left_push. intros acc' m. unfold names, entry_of.
  destruct (spec_field_kind m =? field_kind sf)%string;
    now rewrite ?app_nil_r.
Qed.

Lemma unrecognized_matches (rs : list ITokenMatchResult) :
  populated_matches (unrecognized rs) = flat_map unrecognized_entry rs.
Proof.
  unfold unrecognized, populated_matches.
  induction rs as [|mr rs IH]; simpl; [reflexivity|].
  unfold unrecognized_entry at 1.
  destruct (matches mr); simpl; now rewrite IH.
Qed.

Lemma populateSpecFields_fields (rs : list ITokenMatchResult) :
  populateSpecFields rs =
  map (fun sf => populate_field sf rs) SPECIFICATION ++ [unrecognized rs].
Proof.
  unfold populateSpecFields.
  rewrite (fold_left_push _ (fun sf => [populate_field sf rs]));
    [|reflexivity].
  now rewrite flat_map_singleton.
Qed.

Lemma filter_none {A : Type} (p : A -> bool) (l : list A) :
  (forall a, In a l -> p a = false) -> filter p l = [].
Proof.
  induction l as [|a l IH]; simpl; intros H; [reflexivity|].
  rewrite (H a), IH; auto.
Qed.

Lemma filter_all {A : Type} (p : A -> bool) (l : list A) :
  (forall a, In a l -> p a = true) -> filter p l = l.
Proof.
  induction l as [|a l IH]; simpl; intros H; [reflexivity|].
  rewrite (H a), IH; auto.
Qed.

(** Two tests that never hold together split a list. *)
Lemma filter_disjoint_length {A : Type} (p1 p2 : A -> bool) (l : list A) :
  (forall a, p1 a = true -> p2 a = true -> False) ->
  List.length (filter p1 l) + List.length (filter p2 l) =
  List.length (filter (fun a => p1 a || p2 a) l).
Proof.
  intros Hdis. induction l as [|a l IH]; simpl; [reflexivity|].
  specialize (Hdis a).
  destruct (p1 a), (p2 a); simpl; try lia; exfalso; auto.
Qed.

(** Distinct field names share no match: the contributions of a result
    to the fields [kinds] are as many as its matches that name one of
    them. *)
Lemma contributions_count (mr : ITokenMatchResult) (kinds : list string) :
  NoDup kinds ->
  List.length (flat_map (fun kind => contribution kind mr) kinds) =
  List.length
    (filter (fun m => existsb (fun kind => names kind m) kinds) (matches mr)).
Proof.
  induction 1 as [|kind kinds Hnotin _ IH]; simpl.
  - induction (matches mr) as [|m l IHl]; simpl; auto.
  - rewrite length_app, IH. unfold contribution at 1. rewrite length_map.
    apply filter_disjoint_length.
    intros m H1 H2. apply Hnotin.
    apply existsb_exists in H2 as (kind' & Hin & H2).
    unfold names in H1, H2.
    apply String.eqb_eq in H1, H2. congruence.
Qed.

Lemma catalog_kinds_NoDup : NoDup catalog_kinds.
Proof.
  unfold catalog_kinds. simpl.
  repeat (constructor; [simpl; intuition discriminate|]). constructor.
Qed.

End Aggregator.

(* ================================================================== *)
(** * Digits *)
(* ================================================================== *)

Section Digits.

Lemma is_digit_In (c : ascii) : is_digit c = true -> In c digits.
Proof.
  destruct c as [[] [] [] [] [] [] [] []]; intros H;
    try (vm_compute in H; discriminate H);
    unfold digits; simpl; intuition auto.
Qed.

Lemma value_eqb_eq (v1 v2 : value) : value_eqb v1 v2 = true -> v1 = v2.
Proof.
  destruct v1, v2; simpl; try discriminate; auto.
  intros H. apply String.eqb_eq in H. congruence.
Qed.

Lemma pounds_check_digits :
  forallb
    (fun a => forallb (fun b => forallb (pounds_check a b) digits) digits)
    digits = true.
Proof. vm_compute. reflexivity. Qed.

Lemma pounds_check_ok (a b c : ascii) :
  is_digit a = true -> is_digit b = true -> is_digit c = true ->
  pounds_check a b c = true.
Proof.
  intros Ha Hb Hc. apply is_digit_In in Ha, Hb, Hc.
  pose proof pounds_check_digits as H.
  rewrite forallb_forall in H. specialize (H a Ha).
  rewrite forallb_forall in H. specialize (H b Hb).
  rewrite forallb_forall in H. exact (H c Hc).
Qed.

End Digits.

(* ================================================================== *)
(** * Properties of the parser *)
(* ================================================================== *)

(** C1, as stated, fails: on the third sample line the pipeline reports
    no MATERIAL value at all, so neither [A105] nor [ASME B16.5]. *)
Lemma C1_counterexample :
  ~ (exists fields,
       parse_and_populate line3 = Ok fields /\
       In "A105" (field_values "MATERIAL" fields) /\
       In "ASME B16.5" (field_values "MATERIAL" fields)).
Proof.
  intros (fields & H & HA & _).
  vm_compute in H. injection H as <-.
  vm_compute in HA. exact HA.
Qed.

(** C1, amended.  On the third sample line the candidate
    [FCS A105 ASME B16.5] holds no comma, so it stays one final token;
    it matches no rule, the MATERIAL field is empty and the token is
    listed under UNRECOGNIZED.  When the two codes are separated by a
    comma they are recovered as the MATERIAL values [A105] and
    [ASME B16.5]. *)
Theorem C1_line3_material :
  tokenizeLine line3 =
    Ok ["FLG BLIND"; "RF"; "CL 150"; "FCS A105 ASME B16.5"; quoted "20"] /\
  matches (parseToken "FCS A105 ASME B16.5") = [] /\
  (exists fields,
      parse_and_populate line3 = Ok fields /\
      field_values "MATERIAL" fields = [] /\
      field_values "UNRECOGNIZED" fields =
        ["FLG BLIND"; "RF"; "FCS A105 ASME B16.5"]) /\
  (exists fields,
      parse_and_populate line3_separated = Ok fields /\
      field_values "MATERIAL" fields = ["A105"; "ASME B16.5"]).
Proof.
  split; [vm_compute; reflexivity|].
  split; [vm_compute; reflexivity|].
  split.
  - eexists. split; [vm_compute; reflexivity|].
    split; vm_compute; reflexivity.
  - eexists. split; [vm_compute; reflexivity|].
    vm_compute; reflexivity.
Qed.

(** C2: the code departs from the claim.  The 2-way window classifies
    the two candidates joined by a space and followed by a closing
    brace.  On the line [CL, 150] the text [CL 150] has a match, the
    text that is classified has none, and the two candidates are emitted
    apart. *)
Theorem C2_merge2_closing_brace :
  (forall a b, merge2 a b = ((a ++ " " ++ b) ++ "}")%string) /\
  (forall a b, merge2 a b <> (a ++ " " ++ b)%string) /\
  merge2 "CL" "150" = "CL 150}" /\
  has_matches (parseToken "CL 150") = true /\
  has_matches (parseToken (merge2 "CL" "150")) = false /\
  loop_body (map parseToken ["CL"; "150"]) 0 [] = Ok (0, ["CL"]) /\
  tokenizeLine "CL, 150" = Ok ["CL"; "150"].
Proof.
  split; [exact merge2_closing_brace|].
  split; [exact merge2_not_joined|].
  repeat split; vm_compute; reflexivity.
Qed.

(** C4: the code departs from the claim.  In the pattern the alternation
    separates [S(CH(EDULE)?)? (STD)] from [(STANDARD)]: the rule accepts
    the bare word [STANDARD] and rejects [SCH STANDARD] and
    [SCHEDULE STANDARD]. *)
Theorem C4_schedule_standard :
  match_ SCHEDULE_STANDARD "SCH STD" = VStr "STANDARD" /\
  match_ SCHEDULE_STANDARD "S STD" = VStr "STANDARD" /\
  match_ SCHEDULE_STANDARD "SCHEDULE STD" = VStr "STANDARD" /\
  match_ SCHEDULE_STANDARD "SCH STANDARD" = VNull /\
  match_ SCHEDULE_STANDARD "SCHEDULE STANDARD" = VNull /\
  match_ SCHEDULE_STANDARD "STANDARD" = VStr "STANDARD" /\
  matches (parseToken "SCH STANDARD") = [] /\
  matches (parseToken "STANDARD") =
    [mkTokenMatch "BORE SCHEDULE SIZE" "SCHEDULE STANDARD" "STANDARD"].
Proof. repeat split; vm_compute; reflexivity. Qed.

(** The texts of the language of the POUNDS pattern. *)
Lemma lang_POUNDS (s : string) :
  lang re_POUNDS s ->
  s = "PSI"%string \/
  exists a b c,
    (s = (str3 a b c ++ "#")%string \/
     s = (str3 a b c ++ " LB")%string \/
     s = ("CL " ++ str3 a b c)%string) /\
    is_digit a = true /\ is_digit b = true /\ is_digit c = true.
Proof.
  intros L. cbv [re_POUNDS lit] in L.
  invert_lang; simpl; auto; right; do 3 eexists;
    (split;
     [first [left; reflexivity | right; left; reflexivity
            | right; right; reflexivity]
     | auto]).
Qed.

(** C3, as stated, fails: a token of four digits is not matched. *)
Lemma C3_counterexample :
  match_ POUNDS "1234" = VNull /\ match_ POUNDS "1234" <> VStr "1234".
Proof. split; [vm_compute; reflexivity|]. vm_compute. discriminate. Qed.

(** C3, amended.  The PRESSURE RATING / POUNDS rule matches, against the
    whole token, three digits followed by [#], three digits followed by
    [ LB], and [CL ] followed by three digits, and returns the three
    digits; three digits followed by [CL], and four digits, yield no
    value.  Tokens that end with [PSI] apart, the rule returns a string
    for no other token. *)
Theorem C3_pounds :
  (forall a b c,
      is_digit a = true -> is_digit b = true -> is_digit c = true ->
      match_ POUNDS (str3 a b c ++ "#") = VStr (str3 a b c) /\
      match_ POUNDS (str3 a b c ++ " LB") = VStr (str3 a b c) /\
      match_ POUNDS ("CL " ++ str3 a b c) = VStr (str3 a b c) /\
      match_ POUNDS (str3 a b c ++ "CL") = VNull /\
      (forall d, is_digit d = true ->
                 match_ POUNDS (str3 a b c ++ String d "") = VNull)) /\
  (forall s v,
      match_ POUNDS s = VStr v ->
      ends_with "PSI" s = false ->
      exists a b c,
        is_digit a = true /\ is_digit b = true /\ is_digit c = true /\
        v = str3 a b c /\
        (s = (str3 a b c ++ "#")%string \/
         s = (str3 a b c ++ " LB")%string \/
         s = ("CL " ++ str3 a b c)%string)).
Proof.
  assert (Hforms : forall a b c,
      is_digit a = true -> is_digit b = true -> is_digit c = true ->
      match_ POUNDS (str3 a b c ++ "#") = VStr (str3 a b c) /\
      match_ POUNDS (str3 a b c ++ " LB") = VStr (str3 a b c) /\
      match_ POUNDS ("CL " ++ str3 a b c) = VStr (str3 a b c) /\
      match_ POUNDS (str3 a b c ++ "CL") = VNull /\
      (forall d, is_digit d = true ->
                 match_ POUNDS (str3 a b c ++ String d "") = VNull)).
  { intros a b c Ha Hb Hc.
    pose proof (pounds_check_ok a b c Ha Hb Hc) as H.
    unfold pounds_check in H.
    repeat (apply andb_true_iff in H as [H ?]).
    repeat split; try (now apply value_eqb_eq).
    intros d Hd. apply value_eqb_eq.
    match goal with
    | HF : forallb _ digits = true |- _ => rewrite forallb_forall in HF;
                                           apply HF
    end.
    now apply is_digit_In. }
  split; [exact Hforms|].
  intros s v Hm Hpsi.
  assert (L : lang re_POUNDS s).
  { unfold match_ in Hm.
    destruct (exec (pattern POUNDS) s) as [m|] eqn:E; [|discriminate].
    now apply exec_anchored in E as (_ & _ & L). }
  apply lang_POUNDS in L as [->|(a & b & c & Hs & Ha & Hb & Hc)].
  - discriminate Hpsi.
  - exists a, b, c. repeat (split; [assumption|]).
    destruct (Hforms a b c Ha Hb Hc) as (H1 & H2 & H3 & _).
    split; [|exact Hs].
    destruct Hs as [->|[->| ->]]; congruence.
Qed.

(** C3, amended, at the digits 1, 5, 0 and at the token [150#]. *)
Lemma C3_pounds_witness :
  (is_digit "1" = true /\ is_digit "5" = true /\ is_digit "0" = true) /\
  (match_ POUNDS "150#" = VStr "150" /\
   match_ POUNDS "150 LB" = VStr "150" /\
   match_ POUNDS "CL 150" = VStr "150" /\
   match_ POUNDS "150CL" = VNull /\
   match_ POUNDS "1500" = VNull) /\
  (match_ POUNDS "150#" = VStr "150" /\ ends_with "PSI" "150#" = false) /\
  exists a b c,
    is_digit a = true /\ is_digit b = true /\ is_digit c = true /\
    "150"%string = str3 a b c /\
    ("150#"%string = (str3 a b c ++ "#")%string \/
     "150#"%string = (str3 a b c ++ " LB")%string \/
     "150#"%string = ("CL " ++ str3 a b c)%string).
Proof.
  destruct (proj1 C3_pounds "1" "5" "0"
              eq_refl eq_refl eq_refl)%char as (H1 & H2 & H3 & H4 & H5).
  split; [repeat split; reflexivity|].
  split.
  { split; [exact H1|]. split; [exact H2|]. split; [exact H3|].
    split; [exact H4|]. exact (H5 "0"%char eq_refl). }
  split; [split; [exact H1|reflexivity]|].
  apply (proj2 C3_pounds "150#" "150"); [exact H1|reflexivity].
Defined.

(** C5.  Every rule of the catalog is anchored to the whole candidate:
    when a rule yields a value for [s], its pattern matched at index 0,
    the matched text is [s] itself, and [s] is in the language of the
    pattern.  [XFLANGE] has no match at all, [FLANGE] has the
    PRODUCT TYPE / FLANGE match. *)
Theorem C5_anchored :
  (forall sf fm s,
      In sf SPECIFICATION -> In fm (matchers sf) ->
      truthy (match_ fm s) = true ->
      exists m,
        exec (pattern fm) s = Some m /\
        index m = 0 /\ whole m = s /\ lang (pattern fm) s) /\
  (forall sf fm p s t,
      In sf SPECIFICATION -> In fm (matchers sf) ->
      0 < String.length p + String.length t ->
      truthy (match_ fm (p ++ s ++ t)) = true ->
      exists m, exec (pattern fm) (p ++ s ++ t) = Some m /\ whole m <> s) /\
  matches (parseToken "XFLANGE") = [] /\
  matches (parseToken "FLANGE") =
    [mkTokenMatch "PRODUCT TYPE" "FLANGE" "FLANGE"].
Proof.
  assert (Hwhole : forall sf fm s,
      In sf SPECIFICATION -> In fm (matchers sf) ->
      truthy (match_ fm s) = true ->
      exists m,
        exec (pattern fm) s = Some m /\
        index m = 0 /\ whole m = s /\ lang (pattern fm) s).
  { intros sf fm s Hsf Hfm Ht.
    destruct (catalog_anchored fm (In_all_matchers sf fm Hsf Hfm))
      as [Hs He].
    unfold match_ in Ht.
    destruct (exec (pattern fm) s) as [m|] eqn:E; [|discriminate].
    exists m. split; [reflexivity|]. now apply exec_anchored. }
  split; [exact Hwhole|].
  split; [|split; vm_compute; reflexivity].
  intros sf fm p s t Hsf Hfm Hp Ht.
  destruct (Hwhole sf fm _ Hsf Hfm Ht) as (m & E & _ & Hw & _).
  exists m. split; [exact E|]. rewrite Hw. intros Heq.
  apply (f_equal String.length) in Heq. rewrite !length_append in Heq.
  lia.
Qed.

(** C5 at the rule FLANGE and the tokens [FLANGE] and [FLG]. *)
Lemma C5_anchored_witness :
  (In (mkField "PRODUCT TYPE" [FLANGE; PIPE]) SPECIFICATION /\
   In FLANGE (matchers (mkField "PRODUCT TYPE" [FLANGE; PIPE])) /\
   truthy (match_ FLANGE "FLANGE") = true /\
   0 < String.length "F" + String.length "G" /\
   truthy (match_ FLANGE ("F" ++ "L" ++ "G")) = true) /\
  (exists m,
      exec (pattern FLANGE) "FLANGE" = Some m /\
      index m = 0 /\ whole m = "FLANGE"%string /\
      lang (pattern FLANGE) "FLANGE") /\
  (exists m,
      exec (pattern FLANGE) ("F" ++ "L" ++ "G") = Some m /\
      whole m <> "L"%string).
Proof.
  split; [repeat split; simpl; auto|].
  split.
  - apply (proj1 C5_anchored (mkField "PRODUCT TYPE" [FLANGE; PIPE]) FLANGE);
      [simpl; auto | simpl; auto | reflexivity].
  - apply (proj1 (proj2 C5_anchored)
             (mkField "PRODUCT TYPE" [FLANGE; PIPE]) FLANGE);
      [simpl; auto | simpl; auto | simpl; lia | reflexivity].
Defined.

(** [has_matches] is [parseToken(s).matches.length > 0]. *)
Lemma has_matches_true (r : ITokenMatchResult) :
  has_matches r = true <-> matches r <> [].
Proof.
  unfold has_matches. destruct (matches r); simpl; split; intros H;
    solve [discriminate | congruence | reflexivity].
Qed.

Lemma has_matches_false (r : ITokenMatchResult) :
  has_matches r = false <-> matches r = [].
Proof.
  unfold has_matches. destruct (matches r); simpl; split; intros H;
    solve [discriminate | congruence | reflexivity].
Qed.



(** C7.  The aggregation is the concatenation, in line order, of what
    each result contributes.  A result without matches contributes one
    entry, to UNRECOGNIZED, whose value is its token, and nothing to the
    catalog fields.  A result with matches contributes nothing to
    UNRECOGNIZED and, to each catalog field, one entry for each of its
    matches that names the field; the field names of the catalog are
    distinct and none is UNRECOGNIZED, so a match that names a catalog
    field yields exactly one entry.  Every match that [parseToken]
    produces names a catalog field. *)
Theorem C7_partition (rs : list ITokenMatchResult) :
  populateSpecFields rs =
    map (fun sf =>
           mkPopulated (field_kind sf)
             (flat_map (contribution (field_kind sf)) rs))
      SPECIFICATION
    ++ [mkPopulated "UNRECOGNIZED" (flat_map unrecognized_entry rs)] /\
  NoDup catalog_kinds /\
  ~ In "UNRECOGNIZED"%string catalog_kinds /\
  (forall mr,
      matches mr = [] ->
      unrecognized_entry mr =
        [mkEntry "UNRECOGNIZED" (token mr) (token mr)] /\
      forall kind, contribution kind mr = []) /\
  (forall mr,
      matches mr <> [] ->
      unrecognized_entry mr = [] /\
      (forall kind,
          contribution kind mr =
          map (entry_of mr) (filter (names kind) (matches mr))) /\
      (forall kind,
          (forall m, In m (matches mr) -> spec_field_kind m <> kind) ->
          contribution kind mr = []) /\
      List.length (flat_map (fun kind => contribution kind mr) catalog_kinds)
      = List.length (filter names_catalog_field (matches mr))) /\
  (forall mr,
      forallb names_catalog_field (matches mr) = true ->
      List.length (flat_map (fun kind => contribution kind mr) catalog_kinds)
      = List.length (matches mr)) /\
  (forall t, forallb names_catalog_field (matches (parseToken t)) = true).
Proof.
  split.
  { rewrite populateSpecFields_fields. f_equal.
    - apply map_ext. intros sf.
      rewrite <- populate_field_matches. reflexivity.
    - rewrite <- unrecognized_matches. reflexivity. }
  split; [exact catalog_kinds_NoDup|].
  split; [simpl; intuition discriminate|].
  split.
  { intros mr Hmr. unfold unrecognized_entry, contribution.
    rewrite Hmr. auto. }
  split.
  { intros mr Hmr. split; [|split; [|split]].
    - unfold unrecognized_entry. destruct (matches mr); congruence.
    - reflexivity.
    - intros kind Hkind. unfold contribution.
      rewrite filter_none; [reflexivity|].
      intros m Hm. unfold names. apply String.eqb_neq. now apply Hkind.
    - apply contributions_count. exact catalog_kinds_NoDup. }
  split.
  { intros mr Hall.
    rewrite (contributions_count mr catalog_kinds catalog_kinds_NoDup).
    f_equal. apply filter_all. rewrite forallb_forall in Hall. exact Hall. }
  intros t. apply forallb_forall. intros m Hm.
  apply In_matches_parseToken in Hm as (sf & fm & Hsf & _ & _ & _ & Hk & _).
  unfold names_catalog_field. apply existsb_exists.
  exists (field_kind sf). split.
  - unfold catalog_kinds. now apply in_map.
  - unfold names. now apply String.eqb_eq.
Qed.

(** C7 on the results of the tokens [RF] (no match) and [CL 150] (one
    match, in PRESSURE RATING). *)
Lemma C7_partition_witness :
  (matches (parseToken "RF") = [] /\
   matches (parseToken "CL 150") <> [] /\
   forallb names_catalog_field (matches (parseToken "CL 150")) = true) /\
  (unrecognized_entry (parseToken "RF") = [mkEntry "UNRECOGNIZED" "RF" "RF"] /\
   forall kind, contribution kind (parseToken "RF") = []) /\
  (unrecognized_entry (parseToken "CL 150") = [] /\
   (forall kind,
       contribution kind (parseToken "CL 150") =
       map (entry_of (parseToken "CL 150"))
         (filter (names kind) (matches (parseToken "CL 150")))) /\
   (forall kind,
       (forall m, In m (matches (parseToken "CL 150")) ->
                  spec_field_kind m <> kind) ->
       contribution kind (parseToken "CL 150") = []) /\
   List.length
     (flat_map (fun kind => contribution kind (parseToken "CL 150"))
        catalog_kinds)
   = List.length
       (filter names_catalog_field (matches (parseToken "CL 150")))) /\
  List.length
    (flat_map (fun kind => contribution kind (parseToken "CL 150"))
       catalog_kinds)
  = List.length (matches (parseToken "CL 150")) /\
  field_values "PRESSURE RATING"
    (populateSpecFields [parseToken "RF"; parseToken "CL 150"]) = ["150"] /\
  field_values "UNRECOGNIZED"
    (populateSpecFields [parseToken "RF"; parseToken "CL 150"]) = ["RF"].
Proof.
  destruct (C7_partition [parseToken "RF"; parseToken "CL 150"])
    as (_ & _ & _ & H0 & H1 & H2 & _).
  split; [split; [vm_compute; reflexivity|split];
          [vm_compute; discriminate|vm_compute; reflexivity]|].
  split; [apply H0; vm_compute; reflexivity|].
  split; [apply H1; vm_compute; discriminate|].
  split; [apply H2; vm_compute; reflexivity|].
  split; vm_compute; reflexivity.
Defined.

(** C8.  [tokenizeLine], [parseLine] and the two of them followed by
    [populateSpecFields] return a result on every line: [split] and the
    loop finish, and no element is read outside the array of candidates.
    [parseToken] and [populateSpecFields] are total functions.  The
    empty token has no match and is listed, with the empty value, under
    UNRECOGNIZED wherever it stands among the results. *)
Theorem C8_total :
  (forall line, exists toks, tokenizeLine line = Ok toks) /\
  (forall line, exists rs, parseLine line = Ok rs) /\
  (forall line, exists fields, parse_and_populate line = Ok fields) /\
  (forall t, token (parseToken t) = t) /\
  (forall rs, List.length (populateSpecFields rs)
              = List.length SPECIFICATION + 1) /\
  parseToken "" = mkResult "" [] /\
  tokenizeLine "" = Ok [""%string] /\
  parseLine "" = Ok [mkResult "" []] /\
  field_values "UNRECOGNIZED" (populateSpecFields [parseToken ""])
    = [""%string] /\
  (forall rs1 rs2,
      In ""%string
        (field_values "UNRECOGNIZED"
           (populateSpecFields (rs1 ++ parseToken "" :: rs2)))) /\
  tokenizeLine "FLG,,PIPE" = Ok ["FLG"; ""; "PIPE"]%string /\
  (exists fields,
      parse_and_populate "FLG,,PIPE" = Ok fields /\
      field_values "UNRECOGNIZED" fields = [""%string]).
Proof.
  assert (Hparse : forall line, exists rs, parseLine line = Ok rs).
  { intros line. unfold parseLine.
    destruct (tokenizeLine_total line) as [toks ->]. simpl. eauto. }
  split; [exact tokenizeLine_total|].
  split; [exact Hparse|].
  split.
  { intros line. unfold parse_and_populate.
    destruct (Hparse line) as [rs ->]. simpl. eauto. }
  split; [reflexivity|].
  split.
  { intros rs. rewrite populateSpecFields_fields, length_app, length_map.
    reflexivity. }
  split; [vm_compute; reflexivity|].
  split; [vm_compute; reflexivity|].
  split; [vm_compute; reflexivity|].
  split; [vm_compute; reflexivity|].
  split.
  { intros rs1 rs2. rewrite populateSpecFields_fields.
    unfold field_values. rewrite flat_map_app. apply in_or_app. right.
    simpl. rewrite app_nil_r. unfold unrecognized, populated_matches.
    rewrite filter_app, !map_app. apply in_or_app. right.
    simpl. now left. }
  split; [vm_compute; reflexivity|].
  eexists. split; vm_compute; reflexivity.
Qed.

(** C9.  No rule of the catalog matches a text that ends with a closing
    brace.  The text that the 2-way window classifies ends with one, so
    it never has a match: inside the array the loop body emits the
    candidate at the cursor or a 3-way merge, and every token that
    [tokenizeLine] returns is a candidate of the split or three
    consecutive candidates joined by spaces. *)
Theorem C9_closing_brace :
  (forall sf fm s,
      In sf SPECIFICATION -> In fm (matchers sf) ->
      exec (pattern fm) (s ++ "}") = None /\ match_ fm (s ++ "}") = VNull) /\
  (forall s, matches (parseToken (s ++ "}")) = []) /\
  (forall a b, has_matches (parseToken (merge2 a b)) = false) /\
  (forall candidates i result,
      i < List.length candidates ->
      exists a,
        nth_error candidates i = Some a /\
        (loop_body candidates i result = Ok (i, result ++ [token a]) \/
         exists b c,
           nth_error candidates (i + 1) = Some b /\
           nth_error candidates (i + 2) = Some c /\
           loop_body candidates i result =
             Ok (i + 2, result ++ [merge3 (token a) (token b) (token c)]))) /\
  (forall line toks,
      tokenizeLine line = Ok toks ->
      exists parts,
        split re_comma line = Ok parts /\
        Forall (raw_or_merge3 parts) toks).
Proof.
  split.
  { intros sf fm s Hsf Hfm.
    assert (E : exec (pattern fm) (s ++ "}") = None)
      by (apply match_closing_brace; now apply In_all_matchers with sf).
    split; [exact E|]. unfold match_. now rewrite E. }
  split; [exact parseToken_closing_brace|].
  split; [exact merge2_no_match|].
  split.
  { intros candidates i result Hi.
    destruct (loop_body_cases candidates i result Hi)
      as (a & Ha & [(b & c & Hb & Hc & _ & H)|[(b & _ & Hm & _)|H]]);
      exists a; (split; [exact Ha|]).
    - right. exists b, c. auto.
    - now rewrite merge2_no_match in Hm.
    - now left. }
  intros line toks. unfold tokenizeLine.
  destruct (split re_comma line) as [parts| |] eqn:E; simpl;
    try discriminate.
  intros Hloop. exists parts. split; [reflexivity|].
  rewrite <- (map_token_parseToken parts).
  apply (for_loop_emits _ _ _ _ _ Hloop). constructor.
Qed.

(** C9 on the rule POUNDS and on the line [CL, 150]. *)
Lemma C9_closing_brace_witness :
  (In (mkField "PRESSURE RATING" [POUNDS]) SPECIFICATION /\
   In POUNDS (matchers (mkField "PRESSURE RATING" [POUNDS])) /\
   0 < List.length (map parseToken ["CL"; "150"]) /\
   tokenizeLine "CL, 150" = Ok ["CL"; "150"]%string) /\
  (exec (pattern POUNDS) ("CL 150" ++ "}") = None /\
   match_ POUNDS ("CL 150" ++ "}") = VNull) /\
  (exists a,
      nth_error (map parseToken ["CL"; "150"]) 0 = Some a /\
      (loop_body (map parseToken ["CL"; "150"]) 0 [] = Ok (0, [] ++ [token a])
       \/ exists b c,
           nth_error (map parseToken ["CL"; "150"]) (0 + 1) = Some b /\
           nth_error (map parseToken ["CL"; "150"]) (0 + 2) = Some c /\
           loop_body (map parseToken ["CL"; "150"]) 0 [] =
             Ok (0 + 2, [] ++ [merge3 (token a) (token b) (token c)]))) /\
  (exists parts,
      split re_comma "CL, 150" = Ok parts /\
      Forall (raw_or_merge3 parts) ["CL"; "150"]%string).
Proof.
  destruct C9_closing_brace as (H1 & _ & _ & H4 & H5).
  split; [repeat split; simpl; auto; vm_compute; reflexivity|].
  split; [apply (H1 (mkField "PRESSURE RATING" [POUNDS]) POUNDS);
          simpl; auto|].
  split; [apply H4; simpl; lia|].
  apply H5. vm_compute. reflexivity.
Defined.

(** C10.  [parseToken] pushes a match only for a truthy value, so the
    standardized value of every match, of a token or of a parsed line,
    is a nonempty string.  The token [PSI] is matched by the POUNDS
    pattern, the extraction gives [undefined], and [parseToken] returns
    no match for it. *)
Theorem C10_truthy_values :
  (forall t m,
      In m (matches (parseToken t)) -> standardized_value m <> ""%string) /\
  (forall line rs mr m,
      parseLine line = Ok rs -> In mr rs -> In m (matches mr) ->
      standardized_value m <> ""%string) /\
  (exists m, exec re_POUNDS "PSI" = Some m /\ whole m = "PSI"%string) /\
  first_digits "PSI" = VUndefined /\
  match_ POUNDS "PSI" = VUndefined /\
  truthy VUndefined = false /\
  parseToken "PSI" = mkResult "PSI" [].
Proof.
  assert (Htok : forall t m,
      In m (matches (parseToken t)) -> standardized_value m <> ""%string).
  { intros t m Hm.
    apply In_matches_parseToken in Hm as (sf & fm & _ & _ & Hv & Ht & _).
    rewrite Hv in Ht. intros E. rewrite E in Ht. discriminate. }
  split; [exact Htok|].
  split.
  { intros line rs mr m Hline Hmr Hm. unfold parseLine in Hline.
    destruct (tokenizeLine line) as [toks| |]; simpl in Hline;
      try discriminate.
    injection Hline as <-.
    apply in_map_iff in Hmr as (t & <- & _). now apply (Htok t). }
  split; [eexists; split; vm_compute; reflexivity|].
  repeat split; vm_compute; reflexivity.
Qed.

(** C10 on the token [CL 150] and on the second sample line. *)
Lemma C10_truthy_values_witness :
  (In (mkTokenMatch "PRESSURE RATING" "POUNDS" "150")
      (matches (parseToken "CL 150")) /\
   parseLine (nth 1 getTestLines ""%string) =
     Ok (map parseToken
           ["FLG"; "RFSO"; "CL 150"; "SCH STD"; "FCS A105";
            "ASME B16.5"; "P/D CODE FSA01"; quoted "20"]%string) /\
   In (mkTokenMatch "PRODUCT TYPE" "FLANGE" "FLANGE")
      (matches (parseToken "FLG"))) /\
  standardized_value (mkTokenMatch "PRESSURE RATING" "POUNDS" "150")
    <> ""%string /\
  standardized_value (mkTokenMatch "PRODUCT TYPE" "FLANGE" "FLANGE")
    <> ""%string.
Proof.
  destruct C10_truthy_values as (H1 & H2 & _).
  split; [split; [vm_compute; auto|split];
          [vm_compute; reflexivity|vm_compute; auto]|].
  split.
  - apply (H1 "CL 150"). vm_compute. auto.
  - apply (H2 (nth 1 getTestLines ""%string)
              (map parseToken
                 ["FLG"; "RFSO"; "CL 150"; "SCH STD"; "FCS A105";
                  "ASME B16.5"; "P/D CODE FSA01"; quoted "20"]%string)
              (parseToken "FLG")).
    + vm_compute. reflexivity.
    + simpl. auto.
    + vm_compute. auto.
Defined.

(* ================================================================== *)
(** * The candidates of a line *)
(* ================================================================== *)

Section Candidates.

Lemma reset_captures_nil (caps : list (nat * string)) :
  reset_captures [] caps = caps.
Proof.
  unfold reset_captures.
  induction caps as [|p caps IH]; simpl in *; [reflexivity|].
  f_equal. exact IH.
Qed.

(** The separator at the front of a text: a comma, with the space that
    follows it when there is one. *)
Lemma run_re_comma (i : nat) (c : ascii) (s : string) :
  run re_comma (mkState i (String c s) []) =
  if Ascii.eqb "," c then
    match s with
    | String c' s' =>
        if Ascii.eqb " " c'
        then [mkState (S (S i)) s' []; mkState (S i) s []]
        else [mkState (S i) s []]
    | EmptyString => [mkState (S i) s []]
    end
  else [].
Proof.
  unfold re_comma, Opt.
  change (run (Seq (Chr ",") (Quant (Chr " ") 0 (Some 1) true))
            (mkState i (String c s) []))
    with (flat_map (run (Quant (Chr " ") 0 (Some 1) true))
            (char_matcher (Ascii.eqb ",") (mkState i (String c s) []))).
  unfold char_matcher. simpl rest. cbv beta iota.
  destruct (Ascii.eqb "," c); [|reflexivity].
  cbn [flat_map]. rewrite app_nil_r, run_Quant. cbv zeta.
  unfold advance.
  cbn [endIndex rest captures Nat.eqb negb andb option_map pred].
  rewrite reset_captures_nil. cbn [run]. unfold char_matcher. cbn [rest].
  destruct s as [|c' s']; [reflexivity|].
  destruct (Ascii.eqb " " c'); [|reflexivity].
  cbn [flat_map advance endIndex rest captures].
  replace (S (S i) =? S i) with false by (symmetry; apply Nat.eqb_neq; lia).
  rewrite Nat.add_1_r. reflexivity.
Qed.

Lemma substring_middle (a b c : string) :
  substring (String.length a) (String.length b) (a ++ b ++ c) = b.
Proof.
  induction a as [|x a IH]; simpl; [apply substring_prefix|exact IH].
Qed.

Lemma substring_end (a b : string) :
  substring (String.length a) (String.length b) (a ++ b) = b.
Proof.
  rewrite <- (append_nil_r b) at 2. apply substring_middle.
Qed.

(** The loop of [split] on the separator of the tokenizer, when [pre]
    has been cut already, [piece] is the piece being read and [s] is
    still to read. *)
Lemma split_loop_commas :
  forall fuel pre piece s A str p q,
    str = (pre ++ piece ++ s)%string ->
    p = String.length pre ->
    q = p + String.length piece ->
    2 * String.length s + 1 < fuel ->
    split_loop fuel re_comma str p q A = Ok (A ++ split_commas piece s).
Proof.
  induction fuel as [|fuel IH]; intros pre piece s A str p q Hstr Hp Hq Hfuel;
    [lia|].
  assert (Hsize : String.length str = q + String.length s)
    by (subst; rewrite !length_append; lia).
  assert (Hpiece : substring p (q - p) str = piece).
  { subst. replace (String.length pre + String.length piece
                    - String.length pre)
      with (String.length piece) by lia.
    apply substring_middle. }
  assert (Hrest : substring q (String.length s) str = s).
  { subst. rewrite <- length_append, <- append_assoc. apply substring_end. }
  cbn [split_loop]. cbv zeta.
  destruct s as [|c s].
  - replace (q <? String.length str) with false
      by (symmetry; apply Nat.ltb_ge; simpl in Hsize; lia).
    replace (String.length str - p) with (q - p)
      by (simpl in Hsize; lia).
    now rewrite Hpiece.
  - replace (q <? String.length str) with true
      by (symmetry; apply Nat.ltb_lt; simpl in Hsize; lia).
    replace (String.length str - q) with (String.length (String c s))
      by lia.
    rewrite Hrest, run_re_comma, Ascii.eqb_sym. cbn [split_commas].
    destruct (Ascii.eqb c ",") eqn:Hc.
    + apply Ascii.eqb_eq in Hc. subst c.
      assert (Hcut : forall t k,
                s = (k ++ t)%string ->
                String.length k <= 1 ->
                split_loop fuel re_comma str
                  (S q + String.length k) (S q + String.length k)
                  (A ++ [piece])
                = Ok (A ++ piece :: split_commas "" t)).
      { intros t k Hs Hk.
        rewrite (IH ((pre ++ piece) ++ "," ++ k)%string ""%string t
                   (A ++ [piece]) str
                   (S q + String.length k) (S q + String.length k)).
        - now rewrite <- app_assoc.
        - subst. now rewrite !append_assoc.
        - subst. rewrite !length_append. simpl. lia.
        - simpl. lia.
        - subst s. simpl in Hfuel. rewrite length_append in Hfuel. lia. }
      destruct s as [|c' s'].
      * cbn [endIndex].
        replace (Nat.min (S q) (String.length str)) with (S q)
          by (simpl in Hsize; lia).
        replace (S q =? p) with false by (symmetry; apply Nat.eqb_neq; lia).
        rewrite Hpiece.
        specialize (Hcut ""%string ""%string eq_refl).
        simpl in Hcut. rewrite Nat.add_0_r in Hcut. apply Hcut. lia.
      * rewrite Ascii.eqb_sym.
        destruct (Ascii.eqb c' " ") eqn:Hc'.
        -- apply Ascii.eqb_eq in Hc'. subst c'. cbn [endIndex].
           replace (Nat.min (S (S q)) (String.length str)) with (S (S q))
             by (simpl in Hsize; lia).
           replace (S (S q) =? p) with false
             by (symmetry; apply Nat.eqb_neq; lia).
           rewrite Hpiece.
           specialize (Hcut s' " "%string eq_refl).
           simpl in Hcut. rewrite Nat.add_1_r in Hcut. apply Hcut. lia.
        -- cbn [endIndex].
           replace (Nat.min (S q) (String.length str)) with (S q)
             by (simpl in Hsize; lia).
           replace (S q =? p) with false
             by (symmetry; apply Nat.eqb_neq; lia).
           rewrite Hpiece.
           specialize (Hcut (String c' s') ""%string eq_refl).
           simpl in Hcut. rewrite Nat.add_0_r in Hcut. apply Hcut. lia.
    + apply (IH pre (piece ++ String c "")%string s A str p (q + 1)).
      * subst. now rewrite !append_assoc.
      * exact Hp.
      * rewrite length_append. simpl. lia.
      * simpl in Hfuel. lia.
Qed.

Lemma split_re_comma (line : string) :
  split re_comma line = Ok (split_commas "" line).
Proof.
  unfold split. destruct line as [|c line]; [reflexivity|].
  change (String.length (String c line) =? 0) with false. cbv iota.
  apply (split_loop_commas _ ""%string ""%string (String c line) []);
    try reflexivity. lia.
Qed.

End Candidates.

(* ================================================================== *)
(** * Candidates and tokens *)
(* ================================================================== *)

Section Segmentation.

Lemma count_char_append (a : ascii) (s t : string) :
  count_char a (s ++ t) = count_char a s + count_char a t.
Proof. induction s as [|c s IH]; simpl; [reflexivity|]. rewrite IH. lia. Qed.

(** Facts about [split_commas], by induction on the length of the text
    that is left. *)
Lemma split_commas_spec :
  forall n s piece,
    String.length s <= n ->
    List.length (split_commas piece s) = count_char "," s + 1 /\
    (count_char "," piece = 0 ->
     Forall (fun p => count_char "," p = 0) (split_commas piece s)) /\
    exists seps,
      List.length seps = count_char "," s /\
      Forall (fun sep => sep = ","%string \/ sep = ", "%string) seps /\
      interleave (split_commas piece s) seps = (piece ++ s)%string.
Proof.
  induction n as [|n IH]; intros s piece Hn.
  - destruct s; [|simpl in Hn; lia].
    simpl. split; [reflexivity|]. split; [auto|].
    exists []. simpl. rewrite append_nil_r. auto.
  - destruct s as [|c s].
    { simpl. split; [reflexivity|]. split; [auto|].
      exists []. simpl. rewrite append_nil_r. auto. }
    simpl in Hn. cbn [split_commas count_char].
    destruct (Ascii.eqb c ",") eqn:Hc.
    + apply Ascii.eqb_eq in Hc. subst c.
      destruct s as [|c' s'].
      * destruct (IH ""%string ""%string) as (Hlen & Hno & seps & H1 & H2 & H3);
          [simpl; lia|].
        simpl. split; [reflexivity|]. split; [auto|].
        exists [","%string]. simpl. auto.
      * destruct (Ascii.eqb c' " ") eqn:Hc'.
        -- apply Ascii.eqb_eq in Hc'. subst c'.
           destruct (IH s' ""%string)
             as (Hlen & Hno & seps & H1 & H2 & H3); [simpl in Hn; lia|].
           split; [simpl; rewrite Hlen; lia|].
           split; [intros Hp; constructor; [exact Hp|now apply Hno]|].
           exists (", "%string :: seps). split; [simpl; lia|].
           split; [constructor; auto|].
           cbn [interleave]. rewrite H3. reflexivity.
        -- destruct (IH (String c' s') ""%string)
             as (Hlen & Hno & seps & H1 & H2 & H3); [lia|].
           split; [simpl; simpl in Hlen; rewrite Hlen; lia|].
           split; [intros Hp; constructor; [exact Hp|now apply Hno]|].
           exists (","%string :: seps). split; [simpl; simpl in H1; lia|].
           split; [constructor; auto|].
           cbn [interleave]. rewrite H3. reflexivity.
    + destruct (IH s (piece ++ String c "")%string)
        as (Hlen & Hno & seps & H1 & H2 & H3); [lia|].
      split; [exact Hlen|].
      split.
      * intros Hp. apply Hno. rewrite count_char_append. simpl.
        rewrite Hc. lia.
      * exists seps. split; [exact H1|]. split; [exact H2|].
        rewrite H3, append_assoc. reflexivity.
Qed.

Lemma split_commas_no_comma (s piece : string) :
  count_char "," s = 0 -> split_commas piece s = [(piece ++ s)%string].
Proof.
  revert piece. induction s as [|c s IH]; intros piece; simpl.
  - now rewrite append_nil_r.
  - destruct (Ascii.eqb c ","); [discriminate|]. simpl. intros H.
    rewrite IH, append_assoc; auto.
Qed.

(** ** The groups of candidates that become tokens *)

Lemma skipn_nth_error {A : Type} (l : list A) (i : nat) (a : A) :
  nth_error l i = Some a -> skipn i l = a :: skipn (S i) l.
Proof.
  revert i. induction l as [|x l IH]; intros [|i]; simpl; try discriminate.
  - now intros [= ->].
  - intros H. now apply IH.
Qed.

(** From the cursor [i] on, the loop turns the candidates that are left
    into tokens group by group: a group is one candidate, or three
    candidates whose 3-way merge has a match. *)
Lemma for_loop_groups (candidates : list ITokenMatchResult) :
  forall fuel i result toks,
    for_loop fuel candidates i result = Ok toks ->
    exists groups,
      List.concat groups = skipn i (map token candidates) /\
      Forall
        (fun g =>
           List.length g = 1 \/
           List.length g = 3 /\
           has_matches (parseToken (String.concat " " g)) = true)
        groups /\
      toks = result ++ map (String.concat " ") groups.
Proof.
  induction fuel as [|fuel IH]; intros i result toks; [discriminate|].
  simpl. destruct (i <? List.length candidates) eqn:Hi.
  - apply Nat.ltb_lt in Hi.
    destruct (loop_body_cases candidates i result Hi)
      as (a & Ha & [(b & c & Hb & Hc & Hm & ->)|[(b & _ & Hm & _)| ->]]);
      simpl.
    + intros Hloop.
      apply IH in Hloop as (groups & Hcat & Hall & ->).
      exists ([token a; token b; token c] :: groups).
      split; [|split].
      * simpl.
        rewrite (skipn_nth_error _ i _ (nth_error_map_token _ _ _ Ha)).
        replace (S i) with (i + 1) by lia.
        rewrite (skipn_nth_error _ _ _ (nth_error_map_token _ _ _ Hb)).
        replace (S (i + 1)) with (i + 2) by lia.
        rewrite (skipn_nth_error _ _ _ (nth_error_map_token _ _ _ Hc)).
        replace (S (i + 2)) with (i + 2 + 1) by lia.
        now rewrite Hcat.
      * constructor; [right; split; [reflexivity|exact Hm]|exact Hall].
      * now rewrite <- app_assoc.
    + now rewrite merge2_no_match in Hm.
    + intros Hloop.
      apply IH in Hloop as (groups & Hcat & Hall & ->).
      exists ([token a] :: groups).
      split; [|split].
      * simpl.
        rewrite (skipn_nth_error _ i _ (nth_error_map_token _ _ _ Ha)).
        replace (S i) with (i + 1) by lia.
        now rewrite Hcat.
      * constructor; [now left|exact Hall].
      * now rewrite <- app_assoc.
  - intros [= <-]. apply Nat.ltb_ge in Hi.
    exists []. simpl. rewrite app_nil_r.
    rewrite skipn_all2; [auto|]. now rewrite length_map.
Qed.

Lemma tokenizeLine_groups (line : string) :
  exists groups,
    List.concat groups = split_commas "" line /\
    Forall
      (fun g =>
         List.length g = 1 \/
         List.length g = 3 /\
         has_matches (parseToken (String.concat " " g)) = true)
      groups /\
    tokenizeLine line = Ok (map (String.concat " ") groups).
Proof.
  unfold tokenizeLine. rewrite split_re_comma. simpl.
  destruct (for_loop_total (map parseToken (split_commas "" line))
              (List.length (map parseToken (split_commas "" line)) + 1) 0 [])
    as [toks Htoks]; [lia|].
  rewrite Htoks.
  apply for_loop_groups in Htoks as (groups & Hcat & Hall & ->).
  exists groups. rewrite map_token_parseToken in Hcat. auto.
Qed.

Lemma concat_singletons (groups : list (list string)) :
  Forall (fun g => List.length g = 1) groups ->
  map (String.concat " ") groups = List.concat groups.
Proof.
  induction 1 as [|g groups Hg _ IH]; [reflexivity|].
  destruct g as [|a [|b g]]; try discriminate.
  simpl. now rewrite IH.
Qed.

Lemma length_concat_ge {A : Type} (groups : list (list A)) (g : list A) :
  In g groups -> List.length g <= List.length (List.concat groups).
Proof.
  induction groups as [|h groups IH]; simpl; [contradiction|].
  rewrite length_app. intros [->|H]; [lia|]. specialize (IH H). lia.
Qed.

End Segmentation.

(* ================================================================== *)
(** * Further properties of the tokenizer *)
(* ================================================================== *)

Section TokenizerProperties.

Lemma count_char_concat_space (g : list string) :
  Forall (fun p => count_char "," p = 0) g ->
  count_char "," (String.concat " " g) = 0.
Proof.
  induction 1 as [|a g Ha Hg IH]; [reflexivity|].
  destruct g as [|b g]; [exact Ha|].
  change (String.concat " " (a :: b :: g))
    with (a ++ " " ++ String.concat " " (b :: g))%string.
  rewrite !count_char_append, Ha, IH. reflexivity.
Qed.

Lemma In_concat {A : Type} (groups : list (list A)) (g : list A) (a : A) :
  In g groups -> In a g -> In a (List.concat groups).
Proof. intros Hg Ha. apply in_concat. eauto. Qed.

Lemma tokenizeLine_no_comma (line : string) :
  count_char "," line = 0 -> tokenizeLine line = Ok [line].
Proof.
  intros H. unfold tokenizeLine.
  rewrite split_re_comma, (split_commas_no_comma line ""%string H).
  reflexivity.
Qed.

End TokenizerProperties.

(** X1.  The candidates of a line: [split] with the separator of the
    tokenizer returns one candidate more than the line has commas, no
    candidate holds a comma, and the line is the candidates with a
    separator, a comma or a comma and a space, put back between each two
    of them. *)
Theorem X1_split_candidates (line : string) :
  exists parts seps,
    split re_comma line = Ok parts /\
    List.length parts = count_char "," line + 1 /\
    Forall (fun p => count_char "," p = 0) parts /\
    List.length seps = count_char "," line /\
    Forall (fun sep => sep = ","%string \/ sep = ", "%string) seps /\
    interleave parts seps = line.
Proof.
  destruct (split_commas_spec (String.length line) line ""%string
              (Nat.le_refl _))
    as (Hlen & Hno & seps & H1 & H2 & H3).
  exists (split_commas "" line), seps.
  split; [apply split_re_comma|].
  split; [exact Hlen|]. split; [now apply Hno|]. auto.
Qed.

(** X2.  The tokens of a line cover its candidates: the candidates fall,
    in order, into groups of one to three, none is dropped or repeated,
    each token is the candidates of one group joined by single spaces,
    and a token made of more than one candidate has a match. *)
Theorem X2_tokens_cover_candidates (line : string) :
  exists parts groups,
    split re_comma line = Ok parts /\
    List.concat groups = parts /\
    Forall
      (fun g =>
         1 <= List.length g <= 3 /\
         (List.length g <> 1 ->
          has_matches (parseToken (String.concat " " g)) = true))
      groups /\
    tokenizeLine line = Ok (map (String.concat " ") groups) /\
    1 <= List.length groups <= List.length parts.
Proof.
  destruct (tokenizeLine_groups line) as (groups & Hcat & Hall & Htok).
  exists (split_commas "" line), groups.
  split; [apply split_re_comma|]. split; [exact Hcat|].
  split.
  { apply Forall_impl with (2 := Hall).
    intros g [H|[H Hm]].
    - split; [lia|]. intros Hne. lia.
    - split; [lia|]. intros _. exact Hm. }
  split; [exact Htok|].
  rewrite <- Hcat. split.
  - destruct groups as [|g groups]; [|simpl; lia].
    simpl in Hcat. destruct line as [|c line]; [discriminate|].
    pose proof (proj1 (split_commas_spec (String.length (String c line))
                         (String c line) ""%string (Nat.le_refl _))) as Hl.
    rewrite <- Hcat in Hl. simpl in Hl. lia.
  - clear Hcat Htok. induction Hall as [|g groups Hg _ IH]; simpl; [lia|].
    rewrite length_app. destruct Hg as [Hg|[Hg _]]; lia.
Qed.

(** X2 on the line [WLD, NCK, FLANGE, RF], whose first three candidates
    merge. *)
Lemma X2_tokens_cover_candidates_witness :
  tokenizeLine "WLD, NCK, FLANGE, RF" =
    Ok (map (String.concat " ") [["WLD"; "NCK"; "FLANGE"]; ["RF"]]%string) /\
  exists parts groups,
    split re_comma "WLD, NCK, FLANGE, RF" = Ok parts /\
    List.concat groups = parts /\
    Forall
      (fun g =>
         1 <= List.length g <= 3 /\
         (List.length g <> 1 ->
          has_matches (parseToken (String.concat " " g)) = true))
      groups /\
    tokenizeLine "WLD, NCK, FLANGE, RF"
      = Ok (map (String.concat " ") groups) /\
    1 <= List.length groups <= List.length parts.
Proof.
  split; [vm_compute; reflexivity|].
  apply (X2_tokens_cover_candidates "WLD, NCK, FLANGE, RF").
Defined.

(** X3.  A token returned by [tokenizeLine] holds no comma, and
    tokenizing it again returns it alone; in particular a line without a
    comma is its own single token. *)
Theorem X3_tokens_are_stable (line : string) (toks : list string)
    (t : string) :
  tokenizeLine line = Ok toks ->
  In t toks ->
  count_char "," t = 0 /\ tokenizeLine t = Ok [t].
Proof.
  intros Htok Ht.
  destruct (tokenizeLine_groups line) as (groups & Hcat & Hall & Htok').
  rewrite Htok' in Htok. injection Htok as <-.
  apply in_map_iff in Ht as (g & <- & Hg).
  assert (Hno : count_char "," (String.concat " " g) = 0).
  { apply count_char_concat_space. apply Forall_forall. intros a Ha.
    pose proof (proj1 (proj2 (split_commas_spec (String.length line) line
                                ""%string (Nat.le_refl _))) eq_refl) as Hparts.
    rewrite Forall_forall in Hparts. apply Hparts.
    rewrite <- Hcat. now apply In_concat with g. }
  split; [exact Hno|]. now apply tokenizeLine_no_comma.
Qed.

(** X3 on the line [WLD, NCK, FLANGE, RF] and its merged token. *)
Lemma X3_tokens_are_stable_witness :
  tokenizeLine "WLD, NCK, FLANGE, RF" = Ok ["WLD NCK FLANGE"; "RF"]%string /\
  In "WLD NCK FLANGE"%string ["WLD NCK FLANGE"; "RF"]%string /\
  count_char "," "WLD NCK FLANGE" = 0 /\
  tokenizeLine "WLD NCK FLANGE" = Ok ["WLD NCK FLANGE"%string].
Proof.
  split; [vm_compute; reflexivity|].
  split; [simpl; auto|].
  apply (X3_tokens_are_stable "WLD, NCK, FLANGE, RF"
           ["WLD NCK FLANGE"; "RF"]%string);
    [vm_compute; reflexivity | simpl; auto].
Defined.

(* ================================================================== *)
(** * The rules of the catalog exclude one another *)
(* ================================================================== *)

Section Exclusive.

Lemma first_char_append (s t : string) :
  first_char (s ++ t) =
  match first_char s with
  | Some c => Some c
  | None => first_char t
  end.
Proof. destruct s; reflexivity. Qed.

Lemma first_char_none (s : string) : first_char s = None -> s = ""%string.
Proof. destruct s; [reflexivity|discriminate]. Qed.

Lemma lang_nullable (r : regex) : lang r "" -> nullable r = true.
Proof. intros H. now apply lang_may_end_with in H. Qed.

Lemma lang_may_start_with (r : regex) (w : string) :
  lang r w ->
  match first_char w with
  | Some c => may_start_with r c = true
  | None => nullable r = true
  end.
Proof.
  induction 1 as [ |c|c Hc|cs c Hc| | |r1 r2 w1 w2 H1 IH1 H2 IH2
                 |r1 r2 w _ IH|r1 r2 w _ IH|n r w _ IH
                 |r min max g Hstop|r min max g w1 w2 Hmax H1 IH1 H2 IH2];
    simpl; auto.
  - apply Ascii.eqb_refl.
  - rewrite first_char_append.
    destruct (first_char w1) as [c|] eqn:E1.
    + now rewrite IH1.
    + rewrite IH1. destruct (first_char w2) as [c|].
      * rewrite IH2. apply orb_true_r.
      * now rewrite IH2.
  - destruct (first_char w); rewrite IH; auto using orb_true_r.
  - destruct (first_char w); rewrite IH; auto using orb_true_r.
  - destruct Hstop as [->| ->]; simpl; auto using orb_true_r.
    destruct (min =? 0); reflexivity.
  - rewrite first_char_append. simpl in IH2.
    destruct (first_char w1) as [c|] eqn:E1; [exact IH1|].
    destruct (first_char w2) as [c|]; [exact IH2|].
    rewrite IH1. apply orb_true_r.
Qed.

Lemma In_all_ascii (c : ascii) : In c all_ascii.
Proof.
  unfold all_ascii. rewrite <- (ascii_nat_embedding c).
  apply in_map, in_seq. pose proof (nat_ascii_bounded c). lia.
Qed.

Lemma share_char_false (p1 p2 : ascii -> bool) (c : ascii) :
  share_char p1 p2 = false -> p1 c = true -> p2 c = true -> False.
Proof.
  unfold share_char. intros H H1 H2.
  assert (E : existsb (fun c => p1 c && p2 c) all_ascii = true).
  { apply existsb_exists. exists c. split; [apply In_all_ascii|].
    now rewrite H1, H2. }
  congruence.
Qed.

Lemma separable_sound (r1 r2 : regex) (w : string) :
  separable r1 r2 = true -> lang r1 w -> lang r2 w -> False.
Proof.
  unfold separable. intros H L1 L2.
  apply andb_true_iff in H as [Hn H]. apply negb_true_iff in Hn.
  assert (Hw : w <> ""%string).
  { intros ->. apply lang_nullable in L1. congruence. }
  apply orb_true_iff in H as [H|H]; apply negb_true_iff in H.
  - apply lang_may_start_with in L1, L2.
    destruct (first_char w) as [c|] eqn:E.
    + exact (share_char_false _ _ c H L1 L2).
    + now apply first_char_none in E.
  - apply lang_may_end_with in L1, L2.
    destruct (last_char w) as [c|] eqn:E.
    + exact (share_char_false _ _ c H L1 L2).
    + now apply last_char_none in E.
Qed.

(** ** Inversion of quantified patterns *)

Lemma lang_Opt_inv (r : regex) (w : string) :
  lang (Opt r) w -> w = ""%string \/ lang r w.
Proof.
  unfold Opt. intros H. inversion H as [ | | | | | | | | | |
                                       |r' min max g w1 w2 Hmax H1 H2];
    subst; [now left|].
  simpl in H2. inversion H2 as [ | | | | | | | | | |? ? ? ? _
                                |? ? ? ? ? ? Hmax' _ _]; subst.
  - right. now rewrite append_nil_r.
  - now contradiction Hmax'.
Qed.

Lemma all_digits_append (s t : string) :
  all_digits (s ++ t) = all_digits s && all_digits t.
Proof.
  induction s as [|c s IH]; simpl; [reflexivity|].
  now rewrite IH, andb_assoc.
Qed.

Lemma lang_Quant_Digit (min : nat) (max : option nat) (g : bool)
    (w : string) :
  lang (Quant Digit min max g) w -> all_digits w = true.
Proof.
  remember (Quant Digit min max g) as r eqn:Er. intros H.
  revert min max Er.
  induction H as [ | | | | | | | | |
                 |r' min' max' g' Hstop
                 |r' min' max' g' w1 w2 Hmax H1 _ H2 IH2];
    intros min max Er; try discriminate; [reflexivity|].
  injection Er as -> -> -> ->.
  rewrite all_digits_append, (IH2 _ _ eq_refl), andb_true_r.
  inversion H1 as [ | |c Hc| | | | | | | | | ]; subst. simpl.
  now rewrite Hc.
Qed.

Lemma lang_Quant_one (r : regex) (g : bool) (w : string) :
  lang (Quant r 1 None g) w ->
  exists w1 w2, w = (w1 ++ w2)%string /\ lang r w1 /\
                lang (Quant r 0 None g) w2.
Proof.
  intros H. inversion H as [ | | | | | | | | | |? ? ? ? Hstop
                            |? ? ? ? w1 w2 _ H1 H2]; subst.
  - destruct Hstop; discriminate.
  - exists w1, w2. auto.
Qed.

Lemma lang_Plus_Digit (g : bool) (w : string) :
  lang (Quant Digit 1 None g) w -> number w.
Proof.
  intros H. split; [now apply lang_Quant_Digit in H|].
  apply lang_Quant_one in H as (w1 & w2 & -> & H1 & _).
  inversion H1; subst. discriminate.
Qed.

End Exclusive.

(** Inversion of [lang] through sequences, alternatives, groups and
    optional parts. *)
Ltac invert_lang_opt :=
  repeat match goal with
    | H : lang Eps _ |- _ => inversion H; subst; clear H
    | H : lang (Chr _) _ |- _ => inversion H; subst; clear H
    | H : lang Digit _ |- _ => inversion H; subst; clear H
    | H : lang (Class _) _ |- _ => inversion H; subst; clear H
    | H : lang Bol _ |- _ => inversion H; subst; clear H
    | H : lang Eol _ |- _ => inversion H; subst; clear H
    | H : lang (Seq _ _) _ |- _ => inversion H; subst; clear H
    | H : lang (Alt _ _) _ |- _ => inversion H; subst; clear H
    | H : lang (Group _ _) _ |- _ => inversion H; subst; clear H
    | H : lang (Opt _) _ |- _ =>
        apply lang_Opt_inv in H; destruct H as [->|H]
    | H : lang (Plus Digit) _ |- _ => apply lang_Plus_Digit in H
    | H : lang (PlusLazy Digit) _ |- _ => apply lang_Plus_Digit in H
    end.

Section Shapes.

(** The texts of the STEEL TYPE pattern. *)
Lemma lang_STEEL_TYPE (s : string) :
  lang re_STEEL_TYPE s ->
  exists (fcs s_ : bool) (a b c : ascii) (n : bool),
    s = ((if fcs then "FCS " else "") ++ steel_code s_ a b c n)%string /\
    is_digit a = true /\ is_digit b = true /\ is_digit c = true.
Proof.
  intros L. cbv [re_STEEL_TYPE lit] in L. invert_lang_opt; simpl;
    match goal with
    | Ha : is_digit ?a = true, Hb : is_digit ?b = true,
      Hc : is_digit ?c = true
      |- context [String ?a (String ?b (String ?c _))] =>
        first
          [ exists false, false, a, b, c, false; split; [reflexivity|auto]
          | exists false, false, a, b, c, true; split; [reflexivity|auto]
          | exists false, true, a, b, c, false; split; [reflexivity|auto]
          | exists false, true, a, b, c, true; split; [reflexivity|auto]
          | exists true, false, a, b, c, false; split; [reflexivity|auto]
          | exists true, false, a, b, c, true; split; [reflexivity|auto]
          | exists true, true, a, b, c, false; split; [reflexivity|auto]
          | exists true, true, a, b, c, true; split; [reflexivity|auto] ]
    end.
Qed.

(** The texts of the SCHEDULE INCHES pattern. *)
Lemma lang_SCHEDULE_INCHES (s : string) :
  lang re_SCHEDULE_INCHES s ->
  exists prefix ds,
    s = (prefix ++ ds)%string /\ In prefix schedule_prefixes /\ number ds.
Proof.
  intros L. cbv [re_SCHEDULE_INCHES lit] in L. invert_lang_opt;
    match goal with
    | H : mem_ascii ?c _ = true |- _ =>
        simpl in H; apply orb_true_iff in H as [H|H];
        [|apply orb_true_iff in H as [H|H]; [|discriminate H]];
        apply Ascii.eqb_eq in H; subst c
    end;
    match goal with
    | H : number ?ds |- _ =>
        let finish :=
          (split;
           [simpl; rewrite ?append_nil_r; reflexivity
           |split; [simpl; auto 10|exact H]]) in
        first
          [ exists "S-"%string, ds; finish
          | exists "S "%string, ds; finish
          | exists "SCH-"%string, ds; finish
          | exists "SCH "%string, ds; finish
          | exists "SCHEDULE-"%string, ds; finish
          | exists "SCHEDULE "%string, ds; finish ]
    end.
Qed.

(** The texts of the ASME STANDARD pattern. *)
Lemma lang_ASME (s : string) :
  lang re_ASME s ->
  exists ds1 dot ds2,
    s = ("ASME B" ++ ds1 ++ dot ++ ds2)%string /\
    number ds1 /\ (dot = ""%string \/ dot = "."%string) /\ number ds2.
Proof.
  intros L. cbv [re_ASME lit] in L. invert_lang_opt;
    match goal with
    | H1 : number ?ds1, H2 : number ?ds2 |- context [(?ds1 ++ _)%string] =>
        first
          [ exists ds1, ""%string, ds2; split;
            [simpl; rewrite ?append_nil_r; reflexivity|auto]
          | exists ds1, "."%string, ds2; split;
            [simpl; rewrite ?append_nil_r; reflexivity|auto] ]
    end.
Qed.

End Shapes.

Section AtMostOne.

Lemma steel_not_schedule (w : string) :
  lang re_STEEL_TYPE w -> lang re_SCHEDULE_INCHES w -> False.
Proof.
  intros H1 H2.
  apply lang_STEEL_TYPE in H1 as (fcs & s_ & a & b & c & n & -> & _).
  apply lang_SCHEDULE_INCHES in H2 as (prefix & ds & E & Hp & _).
  unfold schedule_prefixes in Hp. simpl in Hp. unfold steel_code in E.
  destruct fcs, s_;
    repeat (destruct Hp as [<-|Hp]; [simpl in E; congruence|]);
    contradiction.
Qed.

Lemma steel_not_asme (w : string) :
  lang re_STEEL_TYPE w -> lang re_ASME w -> False.
Proof.
  intros H1 H2.
  apply lang_STEEL_TYPE in H1 as (fcs & s_ & a & b & c & n & -> & Ha & _).
  apply lang_ASME in H2 as (ds1 & dot & ds2 & E & _).
  unfold steel_code in E.
  destruct fcs, s_; simpl in E; try congruence.
  injection E as E _. subst a. vm_compute in Ha. discriminate.
Qed.

(** Two rules of different kinds never accept the same text. *)
Lemma rules_exclusive (fm1 fm2 : IFieldMatcher) (w : string) :
  In fm1 all_matchers -> In fm2 all_matchers ->
  matcher_kind fm1 <> matcher_kind fm2 ->
  lang (pattern fm1) w -> lang (pattern fm2) w -> False.
Proof.
  unfold all_matchers. simpl. intros H1 H2 Hne L1 L2.
  repeat (destruct H1 as [<-|H1]; [|]); try contradiction;
    repeat (destruct H2 as [<-|H2]; [|]); try contradiction;
    first
      [ now contradiction Hne
      | apply (separable_sound _ _ w) with (2 := L1) (3 := L2);
        vm_compute; reflexivity
      | exact (steel_not_schedule w L1 L2)
      | exact (steel_not_schedule w L2 L1)
      | exact (steel_not_asme w L1 L2)
      | exact (steel_not_asme w L2 L1) ].
Qed.

Lemma try_matcher_length (t : string) (sf : ISpecField)
    (fm : IFieldMatcher) :
  List.length (try_matcher t sf [] fm) <= 1.
Proof.
  unfold try_matcher. destruct (match_ fm t) as [| |[|c v]]; simpl; lia.
Qed.

Lemma try_matcher_lang (t : string) (sf : ISpecField) (fm : IFieldMatcher) :
  In fm all_matchers ->
  try_matcher t sf [] fm <> [] -> lang (pattern fm) t.
Proof.
  intros Hin Hne. destruct (catalog_anchored fm Hin) as [Hs He].
  unfold try_matcher, match_ in Hne.
  destruct (exec (pattern fm) t) as [m|] eqn:E; [|congruence].
  now apply exec_anchored in E as (_ & _ & L).
Qed.

Lemma matches_catalog_rules (t : string) :
  matches (parseToken t) =
  flat_map (fun p => try_matcher t (fst p) [] (snd p)) catalog_rules.
Proof.
  rewrite matches_parseToken. unfold catalog_rules, SPECIFICATION.
  simpl. rewrite ?app_nil_r, <- ?app_assoc. reflexivity.
Qed.

Lemma flat_map_length_le_1 {A B : Type} (f : A -> list B) (l : list A) :
  (forall a, In a l -> List.length (f a) <= 1) ->
  ForallOrdPairs (fun a b => f a = [] \/ f b = []) l ->
  List.length (flat_map f l) <= 1.
Proof.
  intros Hlen H. induction H as [|a l Ha _ IH]; simpl; [lia|].
  rewrite length_app.
  destruct (f a) as [|x fa] eqn:E.
  - simpl. apply IH. intros b Hb. apply Hlen. now right.
  - assert (Hnil : flat_map f l = []).
    { apply flat_map_nil. intros b Hb. rewrite Forall_forall in Ha.
      destruct (Ha b Hb) as [H|H]; [discriminate|exact H]. }
    rewrite Hnil. specialize (Hlen a (or_introl eq_refl)).
    rewrite E in Hlen. simpl in *. lia.
Qed.

Lemma exclusive_pair (t : string) (p1 p2 : ISpecField * IFieldMatcher) :
  In (snd p1) all_matchers -> In (snd p2) all_matchers ->
  matcher_kind (snd p1) <> matcher_kind (snd p2) ->
  try_matcher t (fst p1) [] (snd p1) = [] \/
  try_matcher t (fst p2) [] (snd p2) = [].
Proof.
  intros H1 H2 Hne.
  destruct (try_matcher t (fst p1) [] (snd p1)) eqn:E1; [now left|].
  destruct (try_matcher t (fst p2) [] (snd p2)) eqn:E2; [now right|].
  exfalso. apply (rules_exclusive (snd p1) (snd p2) t H1 H2 Hne).
  - apply try_matcher_lang with (fst p1); [exact H1|]. now rewrite E1.
  - apply try_matcher_lang with (fst p2); [exact H2|]. now rewrite E2.
Qed.

Lemma parseToken_at_most_one (t : string) :
  List.length (matches (parseToken t)) <= 1.
Proof.
  rewrite matches_catalog_rules.
  apply flat_map_length_le_1.
  - intros p _. apply try_matcher_length.
  - unfold catalog_rules, SPECIFICATION. simpl.
    repeat (apply FOP_cons;
            [repeat (apply Forall_cons;
                     [apply exclusive_pair;
                      [simpl; auto 20|simpl; auto 20|simpl; discriminate]|]);
             apply Forall_nil|]).
    apply FOP_nil.
Qed.

End AtMostOne.

(** X4.  The rules of the catalog exclude one another: a token has at
    most one match.  When it has one, the match names a field of the
    catalog and a rule of that field, and its value is the nonempty
    string that the rule returns. *)
Theorem X4_at_most_one_match (t : string) :
  matches (parseToken t) = [] \/
  exists sf fm v,
    In sf SPECIFICATION /\ In fm (matchers sf) /\
    match_ fm t = VStr v /\ v <> ""%string /\
    matches (parseToken t) =
      [mkTokenMatch (field_kind sf) (matcher_kind fm) v].
Proof.
  pose proof (parseToken_at_most_one t) as Hlen.
  destruct (matches (parseToken t)) as [|m [|m' l]] eqn:E;
    [now left| |simpl in Hlen; lia].
  right.
  assert (Hm : In m (matches (parseToken t))) by (rewrite E; now left).
  apply In_matches_parseToken in Hm
    as (sf & fm & Hsf & Hfm & Hv & Ht & Hk1 & Hk2).
  exists sf, fm, (standardized_value m).
  repeat (split; [assumption|]).
  split.
  - intros Hv'. rewrite Hv, Hv' in Ht. discriminate.
  - clear E Hlen Hv Ht. destruct m as [k1 k2 v].
    cbn [spec_field_kind field_match_kind standardized_value] in *.
    now subst.
Qed.

Section Rows.

Lemma perm_flat_map_app {A B : Type} (g h : A -> list B) (l : list A) :
  Permutation (flat_map g l ++ flat_map h l)
    (flat_map (fun a => g a ++ h a) l).
Proof.
  induction l as [|a l IH]; simpl; [constructor|].
  rewrite <- !app_assoc. apply Permutation_app_head.
  rewrite Permutation_app_swap_app. apply Permutation_app_head. exact IH.
Qed.

Lemma perm_flat_map_swap {K A B : Type} (f : K -> A -> list B)
    (ks : list K) (l : list A) :
  Permutation (flat_map (fun k => flat_map (f k) l) ks)
    (flat_map (fun a => flat_map (fun k => f k a) ks) l).
Proof.
  induction ks as [|k ks IH]; simpl.
  - rewrite flat_map_nil; [constructor|reflexivity].
  - rewrite <- perm_flat_map_app. now apply Permutation_app_head.
Qed.

Lemma flat_map_map_in {A B C : Type} (f : B -> list C) (g : A -> B)
    (l : list A) :
  flat_map f (map g l) = flat_map (fun a => f (g a)) l.
Proof. induction l as [|a l IH]; simpl; congruence. Qed.

Lemma map_flat_map_out {A B C : Type} (g : B -> C) (f : A -> list B)
    (l : list A) :
  map g (flat_map f l) = flat_map (fun a => map g (f a)) l.
Proof.
  induction l as [|a l IH]; simpl; [reflexivity|].
  now rewrite map_app, IH.
Qed.

(** All the entries of a row, result by result, up to their order. *)
Lemma row_entries (rs : list ITokenMatchResult) :
  Permutation (flat_map populated_matches (populateSpecFields rs))
    (flat_map cells rs).
Proof.
  rewrite populateSpecFields_fields, flat_map_app, flat_map_map_in.
  change (flat_map populated_matches [unrecognized rs])
    with (populated_matches (unrecognized rs) ++ []).
  rewrite app_nil_r, unrecognized_matches.
  unfold cells. rewrite <- perm_flat_map_app.
  apply Permutation_app_tail.
  rewrite (flat_map_ext _
             (fun sf => flat_map (contribution (field_kind sf)) rs)
             (fun sf => populate_field_matches sf rs)).
  apply (perm_flat_map_swap (fun sf => contribution (field_kind sf))).
Qed.

Lemma entry_token_contribution (kind : string) (mr : ITokenMatchResult)
    (e : FieldEntry) :
  In e (contribution kind mr) -> entry_token e = token mr.
Proof.
  unfold contribution. intros H.
  apply in_map_iff in H as (m & <- & _). reflexivity.
Qed.

(** A token that [parseToken] classified fills one cell of its row. *)
Lemma cells_parseToken (t : string) :
  map entry_token (cells (parseToken t)) = [t].
Proof.
  unfold cells.
  pose proof (parseToken_at_most_one t) as Hlen.
  destruct (matches (parseToken t)) as [|m [|m' l]] eqn:E;
    [| |simpl in Hlen; lia].
  - unfold unrecognized_entry. rewrite E.
    rewrite flat_map_nil; [reflexivity|].
    intros sf _. unfold contribution. now rewrite E.
  - unfold unrecognized_entry. rewrite E, app_nil_r.
    assert (Hone : List.length
              (flat_map (fun sf => contribution (field_kind sf)
                                     (parseToken t)) SPECIFICATION) = 1).
    { rewrite <- (flat_map_map_in
                    (fun kind => contribution kind (parseToken t))
                    field_kind SPECIFICATION).
      change (map field_kind SPECIFICATION) with catalog_kinds.
      rewrite (contributions_count _ _ catalog_kinds_NoDup), E.
      assert (Hm : In m (matches (parseToken t))) by (rewrite E; now left).
      apply In_matches_parseToken in Hm as (sf & fm & Hsf & _ & _ & _ & Hk & _).
      assert (Hn : existsb (fun kind => names kind m) catalog_kinds = true).
      { apply existsb_exists. exists (field_kind sf).
        split; [now apply in_map|]. unfold names. now apply String.eqb_eq. }
      cbn [filter]. now rewrite Hn. }
    destruct (flat_map _ SPECIFICATION) as [|e [|e' l]] eqn:F;
      try discriminate.
    simpl. f_equal.
    assert (He : In e (flat_map (fun sf => contribution (field_kind sf)
                                            (parseToken t)) SPECIFICATION))
      by (rewrite F; now left).
    apply in_flat_map in He as (sf & _ & He).
    now apply entry_token_contribution in He.
Qed.

End Rows.

(** X5.  Every token of a line fills exactly one cell of its row: the
    tokens of the entries of all the fields, UNRECOGNIZED included, are
    the tokens of the line, each once. *)
Theorem X5_every_token_in_one_cell (line : string) :
  exists toks fields,
    tokenizeLine line = Ok toks /\
    parse_and_populate line = Ok fields /\
    Permutation (map entry_token (flat_map populated_matches fields)) toks.
Proof.
  destruct (tokenizeLine_total line) as [toks Htoks].
  exists toks, (populateSpecFields (map parseToken toks)).
  split; [exact Htoks|].
  split; [unfold parse_and_populate, parseLine; now rewrite Htoks|].
  rewrite (Permutation_map entry_token (row_entries (map parseToken toks))).
  rewrite map_flat_map_out, flat_map_map_in.
  rewrite (flat_map_ext _ (fun t => [t]) cells_parseToken).
  rewrite flat_map_singleton, map_id. reflexivity.
Qed.

(** X6.  The row of a list of results has the fields of the catalog, in
    catalog order, followed by UNRECOGNIZED, whatever the results; and
    the row of two lists put end to end is their two rows put side by
    side, field by field. *)
Theorem X6_rows_compose (rs1 rs2 : list ITokenMatchResult) :
  map populated_kind (populateSpecFields rs1)
    = map field_kind SPECIFICATION ++ ["UNRECOGNIZED"%string] /\
  populateSpecFields [] =
    map (fun kind => mkPopulated kind [])
      (map field_kind SPECIFICATION ++ ["UNRECOGNIZED"%string]) /\
  populateSpecFields (rs1 ++ rs2) =
    append_rows (populateSpecFields rs1) (populateSpecFields rs2).
Proof.
  split; [|split].
  - rewrite populateSpecFields_fields, map_app, map_map. reflexivity.
  - reflexivity.
  - assert (Hfield : forall sf,
              populate_field sf (rs1 ++ rs2) =
              mkPopulated (field_kind sf)
                (populated_matches (populate_field sf rs1)
                 ++ populated_matches (populate_field sf rs2))).
    { intros sf. rewrite !populate_field_matches, <- flat_map_app.
      rewrite <- populate_field_matches. reflexivity. }
    assert (Hunrec : unrecognized (rs1 ++ rs2) =
              mkPopulated "UNRECOGNIZED"
                (populated_matches (unrecognized rs1)
                 ++ populated_matches (unrecognized rs2))).
    { unfold unrecognized, populated_matches.
      now rewrite filter_app, map_app. }
    rewrite !populateSpecFields_fields. unfold append_rows, SPECIFICATION.
    simpl. rewrite !Hfield, Hunrec. reflexivity.
Qed.

(* ================================================================== *)
(** * The matcher is complete on the patterns of the catalog *)
(* ================================================================== *)

Section MatcherCompleteness.

Lemma eol_free_last (r : regex) : eol_free r = true -> eol_last r = true.
Proof.
  induction r; simpl; auto; try discriminate.
  intros H. apply andb_true_iff in H as [H1 H2]. rewrite H1. auto.
Qed.

Lemma char_matcher_intro (p : ascii -> bool) (x : State) (c : ascii)
    (t : string) :
  rest x = String c t -> p c = true ->
  In (advance x t) (char_matcher p x).
Proof. unfold char_matcher. intros -> ->. now left. Qed.

Lemma arrives_char (r : regex) (p : ascii -> bool) (x : State) (c : ascii)
    (t : string) :
  run r x = char_matcher p x ->
  rest x = (String c "" ++ t)%string -> p c = true ->
  arrives r x (String c "") t.
Proof.
  intros Hr Hx Hp. exists (advance x t). rewrite Hr.
  split; [now apply (char_matcher_intro p x c t)|].
  simpl. split; [reflexivity|lia].
Qed.

Theorem run_complete (r : regex) (w : string) :
  lang r w ->
  bol_free r = true -> bodies_consume r = true -> eol_last r = true ->
  forall x t,
    rest x = (w ++ t)%string ->
    eol_free r = true \/ t = ""%string ->
    arrives r x w t.
Proof.
  induction 1 as [ |c|c Hc|cs c Hc| | |r1 r2 w1 w2 _ IH1 _ IH2
                 |r1 r2 w _ IH|r1 r2 w _ IH|n r w _ IH
                 |r min max g Hstop|r min max g w1 w2 Hmax H1 IH1 _ IH2];
    simpl; intros Hbol Hbody Hlast x t Hx Ht.
  - exists x. simpl. split; [now left|]. split; [exact Hx|lia].
  - apply (arrives_char (Chr c) (Ascii.eqb c) x c t); auto.
    apply Ascii.eqb_refl.
  - apply (arrives_char Digit is_digit x c t); auto.
  - apply (arrives_char (Class cs) (fun a => mem_ascii a cs) x c t); auto.
  - discriminate.
  - destruct Ht as [Ht| ->]; [discriminate|].
    exists x. simpl. simpl in Hx. rewrite Hx.
    split; [now left|]. split; [reflexivity|lia].
  - apply andb_true_iff in Hbol as [Hb1 Hb2].
    apply andb_true_iff in Hbody as [Hc1 Hc2].
    apply andb_true_iff in Hlast as [Hl1 Hl2].
    rewrite append_assoc in Hx.
    destruct (IH1 Hb1 Hc1 (eol_free_last _ Hl1) x (w2 ++ t)%string Hx
                (or_introl Hl1)) as (x1 & Hx1 & Hr1 & Hi1).
    assert (Ht2 : eol_free r2 = true \/ t = ""%string).
    { destruct Ht as [Ht|Ht]; [|now right].
      apply andb_true_iff in Ht as [_ Ht]. now left. }
    destruct (IH2 Hb2 Hc2 Hl2 x1 t Hr1 Ht2) as (y & Hy & Hr & Hi).
    exists y. split; [apply in_flat_map; eauto|].
    split; [exact Hr|]. rewrite length_append. lia.
  - apply andb_true_iff in Hbol as [Hb1 Hb2].
    apply andb_true_iff in Hbody as [Hc1 Hc2].
    apply andb_true_iff in Hlast as [Hl1 Hl2].
    destruct (IH Hb1 Hc1 (eol_free_last _ Hl1) x t Hx (or_introl Hl1))
      as (y & Hy & Hr & Hi).
    exists y. split; [apply in_or_app; now left|auto].
  - apply andb_true_iff in Hbol as [Hb1 Hb2].
    apply andb_true_iff in Hbody as [Hc1 Hc2].
    apply andb_true_iff in Hlast as [Hl1 Hl2].
    destruct (IH Hb2 Hc2 (eol_free_last _ Hl2) x t Hx (or_introl Hl2))
      as (y & Hy & Hr & Hi).
    exists y. split; [apply in_or_app; now right|auto].
  - destruct (IH Hbol Hbody (eol_free_last _ Hlast) x t Hx (or_introl Hlast))
      as (y & Hy & Hr & Hi).
    eexists. split; [apply in_map; exact Hy|]. simpl. auto.
  - exists x. split; [|split; [exact Hx|simpl; lia]].
    fold (run (Quant r min max g) x). rewrite run_Quant.
    destruct max as [[|k]|]; try (now left);
      destruct Hstop as [->|Hstop]; try discriminate; simpl;
      destruct g; try (now left); apply in_or_app; right; now left.
  - apply andb_true_iff in Hbody as [Hnull Hbody].
    apply negb_true_iff in Hnull.
    assert (Hw1 : w1 <> ""%string).
    { intros ->. apply lang_nullable in H1. congruence. }
    rewrite append_assoc in Hx.
    destruct (IH1 Hbol Hbody (eol_free_last _ Hlast)
                (mkState (endIndex x) (rest x)
                   (reset_captures (groups r) (captures x)))
                (w2 ++ t)%string Hx (or_introl Hlast))
      as (x1 & Hx1 & Hr1 & Hi1). simpl in Hi1.
    assert (Hbody2 : negb (nullable r) && bodies_consume r = true)
      by (now rewrite Hnull, Hbody).
    destruct (IH2 Hbol Hbody2 Hlast x1 t Hr1 Ht) as (y & Hy & Hr & Hi).
    exists y. split; [|split; [exact Hr|rewrite length_append; lia]].
    fold (run (Quant r min max g) x). rewrite run_Quant.
    assert (Hne : (endIndex x1 =? endIndex x) = false).
    { apply Nat.eqb_neq. destruct w1; [congruence|simpl in Hi1; lia]. }
    assert (Hin : In y
      (flat_map
         (fun y0 =>
            if (min =? 0) && (endIndex y0 =? endIndex x) then []
            else run (Quant r (pred min) (option_map pred max) g) y0)
         (run r (mkState (endIndex x) (rest x)
                   (reset_captures (groups r) (captures x)))))).
    { apply in_flat_map. exists x1. split; [exact Hx1|].
      rewrite Hne, andb_false_r. exact Hy. }
    destruct max as [[|k]|]; [congruence| |]; cbv zeta;
      destruct (negb (min =? 0)); try exact Hin;
      destruct g; try (apply in_or_app; now left); now right.
Qed.

Lemma search_found (re : regex) (i : nat) (s : string) (y : State) :
  In y (run re (mkState i s [])) -> exists m, search re i s = Some m.
Proof.
  intros Hy. destruct s; simpl;
    destruct (run re _) as [|y0 l]; try contradiction; eauto.
Qed.

(** On a well anchored pattern, [exec] finds a match for every text of
    the language of the pattern. *)
Theorem exec_complete (re : regex) (s : string) :
  well_anchored re = true -> lang re s -> exists m, exec re s = Some m.
Proof.
  intros Hwa L. destruct re as [ | | | | | |r0 r| | | ]; try discriminate.
  destruct r0; try discriminate. simpl in Hwa.
  apply andb_true_iff in Hwa as [Hwa Hbody].
  apply andb_true_iff in Hwa as [Hbol Hlast].
  inversion L as [ | | | | | |? ? w1 w2 L1 L2| | | | | ]; subst.
  inversion L1; subst. simpl.
  destruct (run_complete r w2 L2 Hbol Hbody Hlast
              (mkState 0 w2 []) ""%string)
    as (y & Hy & _); [simpl; now rewrite append_nil_r|now right|].
  apply search_found with y. simpl. rewrite app_nil_r. exact Hy.
Qed.

End MatcherCompleteness.

(* ================================================================== *)
(** * Capture groups *)
(* ================================================================== *)

Section Captures.

Lemma get_capture_filter (n : nat) (f : nat * string -> bool)
    (caps : list (nat * string)) :
  (forall p, fst p = n -> f p = true) ->
  get_capture n (filter f caps) = get_capture n caps.
Proof.
  intros Hf. induction caps as [|[k s] caps IH]; simpl; [reflexivity|].
  destruct (f (k, s)) eqn:E; simpl.
  - now rewrite IH.
  - destruct (k =? n) eqn:Hk; [|exact IH].
    apply Nat.eqb_eq in Hk. rewrite (Hf (k, s) Hk) in E. discriminate.
Qed.

Lemma get_capture_set_same (n : nat) (s : string)
    (caps : list (nat * string)) :
  get_capture n (set_capture n s caps) = Some s.
Proof. unfold set_capture. simpl. now rewrite Nat.eqb_refl. Qed.

Lemma get_capture_set_other (n k : nat) (s : string)
    (caps : list (nat * string)) :
  k <> n -> get_capture n (set_capture k s caps) = get_capture n caps.
Proof.
  intros Hk. unfold set_capture. simpl.
  replace (k =? n) with false by (symmetry; now apply Nat.eqb_neq).
  apply get_capture_filter. intros p Hp. apply negb_true_iff.
  apply Nat.eqb_neq. congruence.
Qed.

Lemma get_capture_reset (n : nat) (ns : list nat)
    (caps : list (nat * string)) :
  ~ In n ns ->
  get_capture n (reset_captures ns caps) = get_capture n caps.
Proof.
  intros Hn. unfold reset_captures. apply get_capture_filter.
  intros p Hp. apply negb_true_iff.
  destruct (existsb (Nat.eqb (fst p)) ns) eqn:E; [|reflexivity].
  apply existsb_exists in E as (k & Hk & E). apply Nat.eqb_eq in E.
  exfalso. apply Hn. congruence.
Qed.

Section RepeatFrame.

Variable r : regex.
Variable n : nat.
Hypothesis n_fresh : ~ In n (groups r).
Hypothesis frame_r :
  forall x y, In y (run r x) ->
              get_capture n (captures y) = get_capture n (captures x).

Lemma RepeatMatcher_frame (greedy : bool) :
  forall fuel min max x y,
    In y (RepeatMatcher fuel (run r) (groups r) min max greedy x) ->
    get_capture n (captures y) = get_capture n (captures x).
Proof.
  induction fuel as [|fuel IH]; intros min max x y Hy; [contradiction|].
  assert (Hiter :
    In y (flat_map
            (fun x1 =>
               if (min =? 0) && (endIndex x1 =? endIndex x) then []
               else RepeatMatcher fuel (run r) (groups r) (pred min)
                      (option_map pred max) greedy x1)
            (run r (mkState (endIndex x) (rest x)
                      (reset_captures (groups r) (captures x))))) ->
    get_capture n (captures y) = get_capture n (captures x)).
  { intros H. apply in_flat_map in H as (x1 & Hx1 & H).
    destruct ((min =? 0) && (endIndex x1 =? endIndex x)); [contradiction|].
    apply IH in H. apply frame_r in Hx1. simpl in Hx1.
    rewrite H, Hx1. now apply get_capture_reset. }
  simpl in Hy.
  destruct max as [[|k]|]; [destruct Hy as [<-|[]]; reflexivity| |];
    destruct (min =? 0); simpl in Hy; auto;
    destruct greedy;
    try (apply in_app_or in Hy as [Hy|[<-|[]]]; auto);
    try (destruct Hy as [<-|Hy]; auto).
Qed.

End RepeatFrame.

Lemma char_matcher_captures (p : ascii -> bool) (x y : State) :
  In y (char_matcher p x) -> captures y = captures x.
Proof.
  unfold char_matcher. destruct (rest x); [contradiction|].
  destruct (p a); [|contradiction]. now intros [<-|[]].
Qed.

(** A pattern leaves the groups that it does not hold as they are. *)
Lemma run_frame (r : regex) (n : nat) :
  ~ In n (groups r) ->
  forall x y, In y (run r x) ->
              get_capture n (captures y) = get_capture n (captures x).
Proof.
  induction r as [ |c| |cs| | |r1 IH1 r2 IH2|r1 IH1 r2 IH2|k r IH
                 |r IH min max greedy]; cbn [groups run]; intros Hn x y Hy.
  - now destruct Hy as [<-|[]].
  - now rewrite (char_matcher_captures _ _ _ Hy).
  - now rewrite (char_matcher_captures _ _ _ Hy).
  - now rewrite (char_matcher_captures _ _ _ Hy).
  - destruct (endIndex x =? 0); [|contradiction]. now destruct Hy as [<-|[]].
  - destruct (rest x); [|contradiction]. now destruct Hy as [<-|[]].
  - apply in_flat_map in Hy as (x1 & Hx1 & Hy).
    rewrite (IH2 (fun H => Hn (in_or_app _ _ _ (or_intror H))) _ _ Hy).
    exact (IH1 (fun H => Hn (in_or_app _ _ _ (or_introl H))) _ _ Hx1).
  - apply in_app_or in Hy as [Hy|Hy].
    + exact (IH1 (fun H => Hn (in_or_app _ _ _ (or_introl H))) _ _ Hy).
    + exact (IH2 (fun H => Hn (in_or_app _ _ _ (or_intror H))) _ _ Hy).
  - apply in_map_iff in Hy as (y1 & <- & Hy). cbn [captures].
    rewrite get_capture_set_other; [|intros ->; apply Hn; now left].
    apply IH; [|exact Hy]. intros H. apply Hn. now right.
  - apply (RepeatMatcher_frame r n Hn (IH Hn)) in Hy. exact Hy.
Qed.

(** A group records the text that its pattern consumed. *)
Lemma run_Group_capture (n : nat) (r : regex) (x y : State) :
  In y (run (Group n r) x) ->
  exists w,
    rest x = (w ++ rest y)%string /\
    endIndex y = endIndex x + String.length w /\
    lang r w /\
    get_capture n (captures y) = Some w.
Proof.
  cbn [run]. intros Hy. apply in_map_iff in Hy as (y1 & <- & Hy).
  apply run_sound in Hy as (w & E & I & L). exists w.
  cbn [rest endIndex captures].
  repeat (split; [assumption|]).
  rewrite get_capture_set_same, I, E.
  replace (endIndex x + String.length w - endIndex x)
    with (String.length w) by lia.
  now rewrite substring_prefix.
Qed.

(** One step through a sequence. *)
Lemma run_Seq_step (r1 r2 : regex) (x y : State) :
  In y (run (Seq r1 r2) x) ->
  exists x1 w,
    In y (run r2 x1) /\
    rest x = (w ++ rest x1)%string /\
    lang r1 w /\
    (forall n, ~ In n (groups r1) ->
               get_capture n (captures x1) = get_capture n (captures x)).
Proof.
  simpl. intros Hy. apply in_flat_map in Hy as (x1 & Hx1 & Hy).
  pose proof (run_sound r1 x x1 Hx1) as (w & E & _ & L).
  exists x1, w. repeat (split; [assumption|]).
  intros n Hn. now apply run_frame with r1.
Qed.

(** The state from which the match array of an anchored pattern is
    built. *)
Lemma exec_anchored_state (re : regex) (s : string) (m : MatchArray) :
  anchored_start re = true ->
  exec re s = Some m ->
  exists y, In y (run re (mkState 0 s [])) /\ caps m = captures y.
Proof.
  intros Ha. unfold exec.
  destruct s as [|c s]; simpl;
    destruct (run re _) as [|y l] eqn:E;
    try discriminate; try (now rewrite search_not_at_start);
    intros [= <-]; exists y; split; simpl; auto.
Qed.

End Captures.

(* ================================================================== *)
(** * Building texts of a language *)
(* ================================================================== *)

Section Builders.

Lemma lang_Seq_eq (r1 r2 : regex) (w w1 w2 : string) :
  lang r1 w1 -> lang r2 w2 -> w = (w1 ++ w2)%string -> lang (Seq r1 r2) w.
Proof. intros H1 H2 ->. now constructor. Qed.

Lemma lang_lit (s : string) : lang (lit s) s.
Proof.
  induction s as [|c s IH]; [constructor|].
  destruct s as [|c' s]; [constructor|].
  change (lit (String c (String c' s)))
    with (Seq (Chr c) (lit (String c' s))).
  apply lang_Seq_eq with (String c "") (String c' s); auto.
  constructor.
Qed.

Lemma lang_digits (g : bool) (ds : string) :
  all_digits ds = true -> lang (Quant Digit 0 None g) ds.
Proof.
  induction ds as [|c ds IH]; simpl; intros H.
  - constructor. now left.
  - apply andb_true_iff in H as [Hc Hds].
    apply (L_QuantIter Digit 0 None g (String c "") ds);
      [discriminate|now constructor|now apply IH].
Qed.

Lemma lang_number (g : bool) (ds : string) :
  number ds -> lang (Quant Digit 1 None g) ds.
Proof.
  intros [Hd Hne]. destruct ds as [|c ds]; [congruence|].
  simpl in Hd. apply andb_true_iff in Hd as [Hc Hds].
  apply (L_QuantIter Digit 1 None g (String c "") ds);
    [discriminate|now constructor|now apply lang_digits].
Qed.

Lemma lang_Opt_none (r : regex) : lang (Opt r) "".
Proof. constructor. now left. Qed.

Lemma lang_Opt_some (r : regex) (w : string) : lang r w -> lang (Opt r) w.
Proof.
  intros H. rewrite <- (append_nil_r w).
  apply (L_QuantIter r 0 (Some 1) true w ""); [discriminate|exact H|].
  constructor. now right.
Qed.

Lemma catalog_well_anchored (fm : IFieldMatcher) :
  In fm all_matchers -> well_anchored (pattern fm) = true.
Proof.
  assert (H : forallb (fun fm => well_anchored (pattern fm)) all_matchers
              = true) by reflexivity.
  intros Hin. rewrite forallb_forall in H. now apply H.
Qed.

Lemma append_inj_r (a b c : string) :
  (a ++ c)%string = (b ++ c)%string -> a = b.
Proof.
  revert b. induction a as [|x a IH]; intros [|y b] H; simpl in H.
  - reflexivity.
  - apply (f_equal String.length) in H. simpl in H.
    rewrite length_append in H. lia.
  - apply (f_equal String.length) in H. simpl in H.
    rewrite length_append in H. lia.
  - injection H as -> H. f_equal. now apply IH.
Qed.

End Builders.

(* ================================================================== *)
(** * What each rule accepts and returns *)
(* ================================================================== *)

Section Rules.

(** A rule that returns the constant [c] and whose pattern has the
    language [words]. *)
Lemma word_rule (fm : IFieldMatcher) (c : string) (words : list string) :
  In fm all_matchers ->
  (forall s m, extract fm s m = VStr c) ->
  (forall s, lang (pattern fm) s -> is_word words s = true) ->
  forallb (fun w => value_eqb (match_ fm w) (VStr c)) words = true ->
  forall s, match_ fm s = if is_word words s then VStr c else VNull.
Proof.
  intros Hin Hc Hlang Hwords s.
  destruct (is_word words s) eqn:E.
  - unfold is_word in E. apply existsb_exists in E as (w & Hw & E).
    apply String.eqb_eq in E. subst w.
    rewrite forallb_forall in Hwords. now apply value_eqb_eq, Hwords.
  - unfold match_. destruct (exec (pattern fm) s) as [m|] eqn:Em;
      [|reflexivity].
    destruct (catalog_anchored fm Hin) as [Hs He].
    apply exec_anchored in Em as (_ & _ & L); auto.
    apply Hlang in L. congruence.
Qed.

Lemma lang_FLANGE (s : string) :
  lang re_FLANGE s -> is_word flange_words s = true.
Proof.
  intros L. cbv [re_FLANGE lit] in L. invert_lang_opt; reflexivity.
Qed.

Lemma lang_PIPE (s : string) : lang re_PIPE s -> is_word pipe_words s = true.
Proof. intros L. cbv [re_PIPE lit] in L. invert_lang_opt; reflexivity. Qed.

Lemma lang_EXTRA_HEAVY (s : string) :
  lang re_EXTRA_HEAVY s -> is_word extra_heavy_words s = true.
Proof.
  intros L. cbv [re_EXTRA_HEAVY lit] in L. invert_lang_opt; reflexivity.
Qed.

Lemma lang_CARBON_STEEL (s : string) :
  lang re_CARBON_STEEL s -> is_word carbon_steel_words s = true.
Proof.
  intros L. cbv [re_CARBON_STEEL lit] in L. invert_lang_opt; reflexivity.
Qed.

Lemma lang_WELD_NECK (s : string) :
  lang re_WELD_NECK s -> is_word weld_neck_words s = true.
Proof.
  intros L. cbv [re_WELD_NECK lit] in L. invert_lang_opt; reflexivity.
Qed.

(** ** Steps through the patterns that capture *)

Lemma run_Seq_Group_step (n : nat) (r1 r2 : regex) (x y : State) :
  In y (run (Seq (Group n r1) r2) x) ->
  exists x1 w,
    In y (run r2 x1) /\
    rest x = (w ++ rest x1)%string /\
    lang r1 w /\
    get_capture n (captures x1) = Some w.
Proof.
  cbn [run]. intros Hy. apply in_flat_map in Hy as (x1 & Hx1 & Hy).
  apply (run_Group_capture n r1 x x1) in Hx1 as (w & E & _ & L & C).
  exists x1, w. auto.
Qed.

Lemma run_Eol_inv (x y : State) :
  In y (run Eol x) -> y = x /\ rest x = ""%string.
Proof.
  simpl. destruct (rest x); [|contradiction]. intros [<-|[]]. auto.
Qed.

Lemma m_get_capture (m : MatchArray) (y : State) (n : nat) (w : string) :
  caps m = captures y -> get_capture (S n) (captures y) = Some w ->
  m_get m (S n) = VStr w.
Proof. intros E H. unfold m_get. now rewrite E, H. Qed.

(** INCHES: the first group holds the token without its final quote. *)
Lemma exec_INCHES (s : string) (m : MatchArray) :
  exec re_INCHES s = Some m ->
  exists w,
    s = (w ++ String dquote "")%string /\
    m_get m 1 = VStr w /\
    (number w \/
     exists ds d, w = (ds ++ "." ++ String d "")%string /\
                  number ds /\ is_digit d = true).
Proof.
  intros Hm. apply exec_anchored_state in Hm as (y & Hy & Hc);
    [|reflexivity].
  unfold re_INCHES in Hy.
  apply run_Seq_step in Hy as (x1 & w0 & Hy & E0 & L0 & _).
  apply run_Seq_Group_step in Hy as (x2 & w & Hy & E1 & L1 & C1).
  apply run_Seq_step in Hy as (x3 & w2 & Hy & E2 & L2 & F2).
  apply run_Eol_inv in Hy as [-> E3].
  inversion L0; subst. inversion L2; subst.
  simpl in E0. rewrite E0 in *. rewrite E3 in E2. rewrite E2 in E1.
  exists w. split; [exact E1|].
  split.
  - apply (m_get_capture m x3 0 w Hc). rewrite (F2 1); auto.
  - clear - L1. invert_lang_opt.
    + left. now rewrite append_nil_r.
    + right. eexists _, _. split; [reflexivity|]. auto.
Qed.

(** SCHEDULE INCHES: the first group holds the digits that follow the
    prefix. *)
Lemma exec_SCHEDULE_INCHES (s : string) (m : MatchArray) :
  exec re_SCHEDULE_INCHES s = Some m ->
  exists prefix w,
    s = (prefix ++ w)%string /\ In prefix schedule_prefixes /\
    number w /\ m_get m 1 = VStr w.
Proof.
  intros Hm. apply exec_anchored_state in Hm as (y & Hy & Hc);
    [|reflexivity].
  unfold re_SCHEDULE_INCHES in Hy.
  apply run_Seq_step in Hy as (x1 & w0 & Hy & E0 & L0 & _).
  apply run_Seq_step in Hy as (x2 & w1 & Hy & E1 & L1 & _).
  apply run_Seq_step in Hy as (x3 & w2 & Hy & E2 & L2 & _).
  apply run_Seq_step in Hy as (x4 & w3 & Hy & E3 & L3 & _).
  apply run_Seq_Group_step in Hy as (x5 & w & Hy & E4 & L4 & C4).
  apply run_Eol_inv in Hy as [-> E5].
  assert (Hv : m_get m 1 = VStr w) by exact (m_get_capture m x5 0 w Hc C4).
  rewrite E5, append_nil_r in E4.
  simpl in E0. rewrite E0, E1, E2, E3, E4. clear - L0 L1 L2 L3 L4 Hv.
  cbv [lit] in L2. invert_lang_opt;
    match goal with
    | H : mem_ascii ?c _ = true |- _ =>
        simpl in H; apply orb_true_iff in H as [H|H];
        [|apply orb_true_iff in H as [H|H]; [|discriminate H]];
        apply Ascii.eqb_eq in H; subst c
    end;
    first
      [ exists "S-"%string, w; split; [reflexivity|]
      | exists "S "%string, w; split; [reflexivity|]
      | exists "SCH-"%string, w; split; [reflexivity|]
      | exists "SCH "%string, w; split; [reflexivity|]
      | exists "SCHEDULE-"%string, w; split; [reflexivity|]
      | exists "SCHEDULE "%string, w; split; [reflexivity|] ];
    (split; [simpl; auto 10|auto]).
Qed.

(** STEEL TYPE: the first group holds the alloy code. *)
Lemma exec_STEEL_TYPE (s : string) (m : MatchArray) :
  exec re_STEEL_TYPE s = Some m ->
  exists (fcs s_ : bool) (a b c : ascii) (n : bool),
    s = ((if fcs then "FCS " else "") ++ steel_code s_ a b c n)%string /\
    m_get m 1 = VStr (steel_code s_ a b c n) /\
    is_digit a = true /\ is_digit b = true /\ is_digit c = true.
Proof.
  intros Hm. apply exec_anchored_state in Hm as (y & Hy & Hc);
    [|reflexivity].
  unfold re_STEEL_TYPE in Hy.
  apply run_Seq_step in Hy as (x1 & w0 & Hy & E0 & L0 & _).
  apply run_Seq_step in Hy as (x2 & w1 & Hy & E1 & L1 & _).
  apply run_Seq_Group_step in Hy as (x3 & w & Hy & E2 & L2 & C2).
  apply run_Eol_inv in Hy as [-> E3].
  assert (Hv : m_get m 1 = VStr w) by exact (m_get_capture m x3 0 w Hc C2).
  rewrite E3, append_nil_r in E2.
  simpl in E0. rewrite E0, E1, E2. clear - L0 L1 L2 Hv.
  assert (Hcode : exists (s_ : bool) (a b c : ascii) (n : bool),
            w = steel_code s_ a b c n /\
            is_digit a = true /\ is_digit b = true /\ is_digit c = true).
  { clear - L2. unfold steel_code. invert_lang_opt; simpl;
      match goal with
      | Ha : is_digit ?a = true, Hb : is_digit ?b = true,
        Hc : is_digit ?c = true
        |- context [String ?a (String ?b (String ?c _))] =>
          first
            [ exists false, a, b, c, false; split; [reflexivity|auto]
            | exists false, a, b, c, true; split; [reflexivity|auto]
            | exists true, a, b, c, false; split; [reflexivity|auto]
            | exists true, a, b, c, true; split; [reflexivity|auto] ]
      end. }
  destruct Hcode as (s_ & a & b & c & n & -> & Ha & Hb & Hcd).
  clear L2. cbv [lit] in L1. invert_lang_opt.
  - exists false, s_, a, b, c, n. auto.
  - exists true, s_, a, b, c, n. auto.
Qed.

Lemma steel_check_digits :
  forallb
    (fun a => forallb (fun b => forallb (steel_check a b) digits) digits)
    digits = true.
Proof. vm_compute. reflexivity. Qed.

Lemma steel_check_ok (a b c : ascii) (fcs s_ n : bool) :
  is_digit a = true -> is_digit b = true -> is_digit c = true ->
  match_ STEEL_TYPE ((if fcs then "FCS " else "") ++ steel_code s_ a b c n)
  = VStr (steel_code s_ a b c n).
Proof.
  intros Ha Hb Hc. apply is_digit_In in Ha, Hb, Hc.
  pose proof steel_check_digits as H.
  rewrite forallb_forall in H. specialize (H a Ha).
  rewrite forallb_forall in H. specialize (H b Hb).
  rewrite forallb_forall in H. specialize (H c Hc).
  unfold steel_check in H.
  rewrite forallb_forall in H.
  assert (Hbool : forall x : bool, In x [false; true])
    by (intros []; simpl; auto).
  specialize (H fcs (Hbool fcs)).
  rewrite forallb_forall in H. specialize (H s_ (Hbool s_)).
  rewrite forallb_forall in H. specialize (H n (Hbool n)).
  now apply value_eqb_eq.
Qed.

End Rules.

(** X7.  The rules FLANGE, PIPE, SCHEDULE EXTRA HEAVY and CARBON STEEL
    return their constant exactly on the words of their vocabulary, and
    [null] on every other token. *)
Theorem X7_word_rules (s : string) :
  match_ FLANGE s = (if is_word flange_words s then VStr "FLANGE" else VNull)
  /\ match_ PIPE s = (if is_word pipe_words s then VStr "PIPE" else VNull)
  /\ match_ SCHEDULE_EXTRA_HEAVY s =
       (if is_word extra_heavy_words s then VStr "EXTRA HEAVY" else VNull)
  /\ match_ CARBON_STEEL s =
       (if is_word carbon_steel_words s then VStr "CARBON STEEL" else VNull).
Proof.
  split; [|split; [|split]].
  - apply word_rule; [simpl; auto 20|reflexivity|exact lang_FLANGE|].
    vm_compute. reflexivity.
  - apply word_rule; [simpl; auto 20|reflexivity|exact lang_PIPE|].
    vm_compute. reflexivity.
  - apply word_rule; [simpl; auto 20|reflexivity|exact lang_EXTRA_HEAVY|].
    vm_compute. reflexivity.
  - apply word_rule; [simpl; auto 20|reflexivity|exact lang_CARBON_STEEL|].
    vm_compute. reflexivity.
Qed.

(** X8.  The WELD NECK rule returns [WELD NECK] exactly on the forty
    ways of writing [WELD NECK] with or without [FLANGE], and on
    [WNWELD] and [WNFWELD]; it returns [null] on every other token,
    [WN] and [WNF] included. *)
Theorem X8_weld_neck (s : string) :
  match_ WELD_NECK s =
    (if is_word weld_neck_words s then VStr "WELD NECK" else VNull) /\
  List.length weld_neck_words = 42 /\
  is_word weld_neck_words "WN" = false /\
  is_word weld_neck_words "WNF" = false.
Proof.
  split; [|repeat split].
  apply word_rule; [simpl; auto 20|reflexivity|exact lang_WELD_NECK|].
  vm_compute. reflexivity.
Qed.

Section NumericRules.

Lemma value_cases (re : regex) (f : MatchArray -> value) (s : string) :
  (forall m, exec re s = Some m -> exists w, f m = VStr w) ->
  match exec re s with Some m => f m | None => VNull end = VNull \/
  exists v, match exec re s with Some m => f m | None => VNull end = VStr v.
Proof.
  intros H. destruct (exec re s) as [m|]; [|now left].
  right. now apply H.
Qed.

Lemma lang_INCHES (v : string) :
  number v \/
  (exists ds d, v = (ds ++ "." ++ String d "")%string /\
                number ds /\ is_digit d = true) ->
  lang re_INCHES (v ++ String dquote "").
Proof.
  intros Hv. unfold re_INCHES.
  apply lang_Seq_eq with ""%string (v ++ String dquote "")%string;
    [constructor| |reflexivity].
  apply lang_Seq_eq with v (String dquote ""); [| |reflexivity].
  - constructor. destruct Hv as [Hv|(ds & d & -> & Hds & Hd)].
    + apply lang_Seq_eq with v ""%string;
        [now apply lang_number|apply lang_Opt_none|].
      now rewrite append_nil_r.
    + apply lang_Seq_eq with ds ("." ++ String d "")%string;
        [now apply lang_number| |reflexivity].
      apply lang_Opt_some.
      apply lang_Seq_eq with "."%string (String d "");
        [constructor|now constructor|reflexivity].
  - apply lang_Seq_eq with (String dquote "") ""%string;
      [constructor|constructor|reflexivity].
Qed.

Lemma lang_schedule (opt : string) (c : ascii) (v : string) :
  lang (Opt (Seq (lit "CH") (Opt (lit "EDULE")))) opt ->
  mem_ascii c ["-"; " "]%char = true ->
  number v ->
  lang re_SCHEDULE_INCHES ("S" ++ opt ++ String c "" ++ v).
Proof.
  intros Hopt Hc Hv. unfold re_SCHEDULE_INCHES.
  apply lang_Seq_eq
    with ""%string ("S" ++ opt ++ String c "" ++ v)%string;
    [constructor| |reflexivity].
  apply lang_Seq_eq with "S"%string (opt ++ String c "" ++ v)%string;
    [constructor| |reflexivity].
  apply lang_Seq_eq with opt (String c "" ++ v)%string;
    [exact Hopt| |reflexivity].
  apply lang_Seq_eq with (String c "") v; [now constructor| |reflexivity].
  apply lang_Seq_eq with v ""%string;
    [constructor; now apply lang_number|constructor|].
  now rewrite append_nil_r.
Qed.

Lemma lang_schedule_prefix (prefix v : string) :
  In prefix schedule_prefixes -> number v ->
  lang re_SCHEDULE_INCHES (prefix ++ v).
Proof.
  intros Hp Hv.
  assert (H0 : lang (Opt (Seq (lit "CH") (Opt (lit "EDULE")))) "")
    by apply lang_Opt_none.
  assert (H1 : lang (Opt (Seq (lit "CH") (Opt (lit "EDULE")))) "CH").
  { apply lang_Opt_some. apply lang_Seq_eq with "CH"%string ""%string;
      [apply lang_lit|apply lang_Opt_none|reflexivity]. }
  assert (H2 : lang (Opt (Seq (lit "CH") (Opt (lit "EDULE")))) "CHEDULE").
  { apply lang_Opt_some. apply lang_Seq_eq with "CH"%string "EDULE"%string;
      [apply lang_lit|apply lang_Opt_some, lang_lit|reflexivity]. }
  unfold schedule_prefixes in Hp. simpl in Hp.
  destruct Hp as [<-|[<-|[<-|[<-|[<-|[<-|[]]]]]]].
  - exact (lang_schedule "" "-" v H0 eq_refl Hv).
  - exact (lang_schedule "" " " v H0 eq_refl Hv).
  - exact (lang_schedule "CH" "-" v H1 eq_refl Hv).
  - exact (lang_schedule "CH" " " v H1 eq_refl Hv).
  - exact (lang_schedule "CHEDULE" "-" v H2 eq_refl Hv).
  - exact (lang_schedule "CHEDULE" " " v H2 eq_refl Hv).
Qed.

Lemma lang_asme (ds1 dot ds2 : string) :
  number ds1 -> dot = ""%string \/ dot = "."%string -> number ds2 ->
  lang re_ASME ("ASME B" ++ ds1 ++ dot ++ ds2).
Proof.
  intros H1 Hdot H2. unfold re_ASME.
  apply lang_Seq_eq with ""%string ("ASME B" ++ ds1 ++ dot ++ ds2)%string;
    [constructor| |reflexivity].
  apply lang_Seq_eq with ("ASME B" ++ ds1 ++ dot ++ ds2)%string ""%string;
    [|constructor|now rewrite append_nil_r].
  constructor.
  apply lang_Seq_eq with "ASME B"%string (ds1 ++ dot ++ ds2)%string;
    [apply lang_lit| |reflexivity].
  apply lang_Seq_eq with ds1 (dot ++ ds2)%string;
    [now apply lang_number| |reflexivity].
  apply lang_Seq_eq with dot ds2; [|now apply lang_number|reflexivity].
  destruct Hdot as [->| ->]; [apply lang_Opt_none|].
  apply lang_Opt_some. constructor.
Qed.

End NumericRules.

(** X9.  The INCHES rule returns a string exactly on the tokens made of
    digits, or of digits, a point and one digit, followed by a double
    quote; the value is the token without the quote.  On every other
    token it returns [null]. *)
Theorem X9_inches (s : string) :
  (forall v,
      match_ INCHES s = VStr v <->
      s = (v ++ String dquote "")%string /\
      (number v \/
       exists ds d, v = (ds ++ "." ++ String d "")%string /\
                    number ds /\ is_digit d = true)) /\
  (match_ INCHES s = VNull \/ exists v, match_ INCHES s = VStr v).
Proof.
  change (match_ INCHES s)
    with (match exec re_INCHES s with
          | Some m => m_get m 1
          | None => VNull
          end).
  split.
  - intros v. split.
    + destruct (exec re_INCHES s) as [m|] eqn:E; [|discriminate].
      apply exec_INCHES in E as (w & Hs & Hw & Hshape).
      rewrite Hw. intros [= <-]. auto.
    + intros [Hs Hshape].
      destruct (exec_complete re_INCHES s eq_refl) as [m Hm];
        [rewrite Hs; now apply lang_INCHES|].
      rewrite Hm. apply exec_INCHES in Hm as (w & Hs' & Hw & _).
      rewrite Hw. f_equal. rewrite Hs in Hs'.
      symmetry. now apply append_inj_r in Hs'.
  - apply value_cases. intros m Hm.
    apply exec_INCHES in Hm as (w & _ & Hw & _). eauto.
Qed.

(** X9 on the token made of 3.5 and a double quote. *)
Lemma X9_inches_witness :
  match_ INCHES (quoted "3.5") = VStr "3.5" /\
  match_ INCHES (quoted "20") = VStr "20".
Proof.
  split.
  - apply (proj1 (X9_inches (quoted "3.5")) "3.5"%string).
    split; [reflexivity|]. right. exists "3"%string, "5"%char.
    repeat split; discriminate.
  - apply (proj1 (X9_inches (quoted "20")) "20"%string).
    split; [reflexivity|]. left. split; [reflexivity|discriminate].
Defined.

(** X10.  The SCHEDULE INCHES rule returns a string exactly on the
    tokens made of [S], [SCH] or [SCHEDULE], a hyphen or a space, and
    digits; the value is the digits.  On every other token it returns
    [null]. *)
Theorem X10_schedule_inches (s : string) :
  (forall v,
      match_ SCHEDULE_INCHES s = VStr v <->
      number v /\
      exists prefix, In prefix schedule_prefixes /\
                     s = (prefix ++ v)%string) /\
  (match_ SCHEDULE_INCHES s = VNull \/
   exists v, match_ SCHEDULE_INCHES s = VStr v).
Proof.
  change (match_ SCHEDULE_INCHES s)
    with (match exec re_SCHEDULE_INCHES s with
          | Some m => m_get m 1
          | None => VNull
          end).
  split.
  - intros v. split.
    + destruct (exec re_SCHEDULE_INCHES s) as [m|] eqn:E; [|discriminate].
      apply exec_SCHEDULE_INCHES in E as (prefix & w & Hs & Hp & Hn & Hw).
      rewrite Hw. intros [= <-]. eauto.
    + intros (Hn & prefix & Hp & Hs).
      destruct (exec_complete re_SCHEDULE_INCHES s eq_refl) as [m Hm];
        [rewrite Hs; now apply lang_schedule_prefix|].
      rewrite Hm.
      apply exec_SCHEDULE_INCHES in Hm as (prefix' & w & Hs' & Hp' & _ & Hw).
      rewrite Hw. f_equal. rewrite Hs in Hs'. clear - Hp Hp' Hs'.
      unfold schedule_prefixes in Hp, Hp'. simpl in Hp, Hp'.
      destruct Hp as [<-|[<-|[<-|[<-|[<-|[<-|[]]]]]]];
        destruct Hp' as [<-|[<-|[<-|[<-|[<-|[<-|[]]]]]]];
        simpl in Hs'; congruence.
  - apply value_cases. intros m Hm.
    apply exec_SCHEDULE_INCHES in Hm as (prefix & w & _ & _ & _ & Hw). eauto.
Qed.

(** X10 on the tokens [SCH 40] and [S-80]. *)
Lemma X10_schedule_inches_witness :
  match_ SCHEDULE_INCHES "SCH 40" = VStr "40" /\
  match_ SCHEDULE_INCHES "S-80" = VStr "80".
Proof.
  split.
  - apply (proj1 (X10_schedule_inches "SCH 40") "40"%string).
    split; [split; [reflexivity|discriminate]|].
    exists "SCH "%string. split; [simpl; auto 10|reflexivity].
  - apply (proj1 (X10_schedule_inches "S-80") "80"%string).
    split; [split; [reflexivity|discriminate]|].
    exists "S-"%string. split; [simpl; auto 10|reflexivity].
Defined.

(** X11.  The ASME STANDARD rule returns a string exactly on the tokens
    made of [ASME B], digits, an optional point and digits again, so
    with two digits at least; the value is the token itself.  On every
    other token it returns [null]. *)
Theorem X11_asme_standard (s : string) :
  (forall v,
      match_ ASME_STANDARD s = VStr v <->
      v = s /\
      exists ds1 dot ds2,
        s = ("ASME B" ++ ds1 ++ dot ++ ds2)%string /\
        number ds1 /\ (dot = ""%string \/ dot = "."%string) /\
        number ds2) /\
  (match_ ASME_STANDARD s = VNull \/
   exists v, match_ ASME_STANDARD s = VStr v).
Proof.
  change (match_ ASME_STANDARD s)
    with (match exec re_ASME s with
          | Some m => m_get m 0
          | None => VNull
          end).
  split.
  - intros v. split.
    + destruct (exec re_ASME s) as [m|] eqn:E; [|discriminate].
      apply exec_anchored in E as (_ & Hw & L); [|reflexivity..].
      simpl. rewrite Hw. intros [= <-]. split; [reflexivity|].
      now apply lang_ASME.
    + intros (-> & ds1 & dot & ds2 & Hs & H1 & Hdot & H2).
      destruct (exec_complete re_ASME s eq_refl) as [m Hm];
        [rewrite Hs; now apply lang_asme|].
      rewrite Hm. apply exec_anchored in Hm as (_ & Hw & _);
        [|reflexivity..].
      simpl. now rewrite Hw.
  - apply value_cases. intros m _. simpl. eauto.
Qed.

(** X11 on the tokens [ASME B16.5] and [ASME B31]. *)
Lemma X11_asme_standard_witness :
  match_ ASME_STANDARD "ASME B16.5" = VStr "ASME B16.5" /\
  match_ ASME_STANDARD "ASME B31" = VStr "ASME B31".
Proof.
  split.
  - apply (proj1 (X11_asme_standard "ASME B16.5") "ASME B16.5"%string).
    split; [reflexivity|]. exists "16"%string, "."%string, "5"%string.
    repeat split; auto; discriminate.
  - apply (proj1 (X11_asme_standard "ASME B31") "ASME B31"%string).
    split; [reflexivity|]. exists "3"%string, ""%string, "1"%string.
    repeat split; auto; discriminate.
Defined.

(** X12.  The STEEL TYPE rule returns a string exactly on the alloy
    codes (an optional [S], [A], three digits, an optional [N]) with or
    without [FCS ] before them; the value is the alloy code, without
    [FCS ].  On every other token it returns [null]. *)
Theorem X12_steel_type (s : string) :
  (forall v,
      match_ STEEL_TYPE s = VStr v <->
      exists (fcs s_ : bool) (a b c : ascii) (n : bool),
        is_digit a = true /\ is_digit b = true /\ is_digit c = true /\
        v = steel_code s_ a b c n /\
        s = ((if fcs then "FCS " else "") ++ v)%string) /\
  (match_ STEEL_TYPE s = VNull \/ exists v, match_ STEEL_TYPE s = VStr v).
Proof.
  split.
  - intros v. split.
    + change (match_ STEEL_TYPE s)
        with (match exec re_STEEL_TYPE s with
              | Some m => m_get m 1
              | None => VNull
              end).
      destruct (exec re_STEEL_TYPE s) as [m|] eqn:E; [|discriminate].
      apply exec_STEEL_TYPE in E
        as (fcs & s_ & a & b & c & n & Hs & Hw & Ha & Hb & Hc).
      rewrite Hw. intros [= <-]. exists fcs, s_, a, b, c, n. auto.
    + intros (fcs & s_ & a & b & c & n & Ha & Hb & Hc & -> & ->).
      now apply steel_check_ok.
  - change (match_ STEEL_TYPE s)
      with (match exec re_STEEL_TYPE s with
            | Some m => m_get m 1
            | None => VNull
            end).
    apply value_cases. intros m Hm.
    apply exec_STEEL_TYPE in Hm as (fcs & s_ & a & b & c & n & _ & Hw & _).
    eauto.
Qed.

(** X12 on the tokens [FCS A105] and [SA516N]. *)
Lemma X12_steel_type_witness :
  match_ STEEL_TYPE "FCS A105" = VStr "A105" /\
  match_ STEEL_TYPE "SA516N" = VStr "SA516N".
Proof.
  split.
  - apply (proj1 (X12_steel_type "FCS A105") "A105"%string).
    exists true, false, "1"%char, "0"%char, "5"%char, false.
    repeat split; reflexivity.
  - apply (proj1 (X12_steel_type "SA516N") "SA516N"%string).
    exists false, true, "5"%char, "1"%char, "6"%char, true.
    repeat split; reflexivity.
Defined.

(* ================================================================== *)
(** * What a merge can recover *)
(* ================================================================== *)

Section Merges.

Lemma lang_max_count (a : ascii) (r : regex) (w : string) :
  lang r w ->
  forall k, max_count a r = Some k -> count_char a w <= k.
Proof.
  induction 1 as [ |c|c Hc|cs c Hc| | |r1 r2 w1 w2 _ IH1 _ IH2
                 |r1 r2 w _ IH|r1 r2 w _ IH|n r w _ IH
                 |r min max g Hstop|r min max g w1 w2 Hmax _ IH1 _ IH2];
    simpl; intros k Hk.
  - lia.
  - injection Hk as <-. destruct (Ascii.eqb c a); lia.
  - injection Hk as <-. destruct (Ascii.eqb c a) eqn:E; [|simpl; lia].
    apply Ascii.eqb_eq in E. subst. rewrite Hc. lia.
  - injection Hk as <-. destruct (Ascii.eqb c a) eqn:E; [|simpl; lia].
    apply Ascii.eqb_eq in E. subst. rewrite Hc. lia.
  - lia.
  - lia.
  - destruct (max_count a r1) as [k1|]; [|discriminate].
    destruct (max_count a r2) as [k2|]; [|discriminate].
    injection Hk as <-. rewrite count_char_append.
    specialize (IH1 _ eq_refl). specialize (IH2 _ eq_refl). lia.
  - destruct (max_count a r1) as [k1|]; [|discriminate].
    destruct (max_count a r2) as [k2|]; [|discriminate].
    injection Hk as <-. specialize (IH _ eq_refl). lia.
  - destruct (max_count a r1) as [k1|]; [|discriminate].
    destruct (max_count a r2) as [k2|]; [|discriminate].
    injection Hk as <-. specialize (IH _ eq_refl). lia.
  - auto.
  - lia.
  - rewrite count_char_append. simpl in IH2.
    destruct (max_count a r) as [[|k0]|]; [| |discriminate].
    + injection Hk as <-.
      specialize (IH1 _ eq_refl). specialize (IH2 _ eq_refl). lia.
    + destruct max as [[|n]|]; [congruence| |discriminate].
      injection Hk as <-.
      specialize (IH1 _ eq_refl). simpl in IH2.
      specialize (IH2 _ eq_refl). lia.
Qed.

Lemma merge3_spaces (a b c : string) : 2 <= count_char " " (merge3 a b c).
Proof.
  unfold merge3. rewrite !count_char_append. simpl. lia.
Qed.

(** Apart from WELD NECK, no rule accepts a text with two spaces. *)
Lemma one_space_rules (fm : IFieldMatcher) (w : string) :
  In fm all_matchers ->
  matcher_kind fm <> "WELD NECK"%string ->
  lang (pattern fm) w -> count_char " " w <= 1.
Proof.
  unfold all_matchers. simpl. intros Hin Hk L.
  repeat (destruct Hin as [<-|Hin];
          [first [ now contradiction Hk
                 | apply (lang_max_count " " _ w L); reflexivity
                 | apply Nat.le_trans with 0; [|lia];
                   apply (lang_max_count " " _ w L); reflexivity ]|]).
  contradiction.
Qed.

End Merges.


